(** * Smart-classroom: the transcription and upload pipeline

    A shallow embedding of [src/lib/transcriptionService.ts] and
    [src/lib/fileUpload.ts], and the properties of the pipeline that the
    specification states about them. *)

From Stdlib Require Import ZArith NArith Lia List Bool Ascii String DecimalString.
From Stdlib Require DecimalPos DecimalN.
From stdpp Require Import base option list gmap.

#[local] Open Scope N_scope.

(** ** JavaScript strings

    A JavaScript string is a sequence of UTF-16 code units; [length],
    [substring], [charAt], [lastIndexOf] and the regular expressions of the
    source all work on code units. *)

Module JS.

Abbreviation jsstring := (list N).

(** A string literal of the source (ASCII only). *)
Definition lit (s : string) : jsstring :=
  map N_of_ascii (list_ascii_of_string s).

(** The double quote, which the literals below cannot hold. *)
Definition dquote : jsstring := [34].

(** [WhiteSpace] and [LineTerminator] of ECMAScript: the characters the
    regular expression class [\s] matches and [String.prototype.trim]
    strips (the two sets are the same). *)
Definition is_space (c : N) : bool :=
  ((9 <=? c) && (c <=? 13)) || (c =? 32) || (c =? 160) || (c =? 5760)
  || ((8192 <=? c) && (c <=? 8202)) || (c =? 8232) || (c =? 8233)
  || (c =? 8239) || (c =? 8287) || (c =? 12288) || (c =? 65279).

Fixpoint drop_spaces (s : jsstring) : jsstring :=
  match s with
  | c :: r => if is_space c then drop_spaces r else s
  | [] => []
  end.

(** [s.trim()] *)
Definition trim (s : jsstring) : jsstring :=
  rev (drop_spaces (rev (drop_spaces s))).

(** [s.replace(/\s+/g, ' ')]: every maximal run of white space becomes
    one space.  [in_run] tells that the previous character belonged to a
    run that has been replaced already. *)
Fixpoint replace_runs (in_run : bool) (s : jsstring) : jsstring :=
  match s with
  | [] => []
  | c :: r =>
      if is_space c
      then (if in_run then replace_runs true r else 32 :: replace_runs true r)
      else c :: replace_runs false r
  end.

Definition replace_whitespace_runs (s : jsstring) : jsstring :=
  replace_runs false s.

(** [/[.!?]$/]: the last code unit is a full stop, an exclamation mark or
    a question mark. *)
Definition is_terminal (c : N) : bool :=
  (c =? 46) || (c =? 33) || (c =? 63).

Definition ends_with_terminal (s : jsstring) : bool :=
  match last s with
  | Some c => is_terminal c
  | None => false
  end.

(** Upper case of an ASCII code unit. *)
Definition ascii_upper (c : N) : N :=
  if (97 <=? c) && (c <=? 122) then c - 32 else c.

(** [s.lastIndexOf(ch)] for a one-character [ch]: the greatest index
    holding [ch], or [-1]. *)
Fixpoint lastIndexOf_from (i : Z) (acc : Z) (s : jsstring) (ch : N) : Z :=
  match s with
  | [] => acc
  | c :: r => lastIndexOf_from (i + 1) (if c =? ch then i else acc) r ch
  end.

Definition lastIndexOf (s : jsstring) (ch : N) : Z :=
  lastIndexOf_from 0%Z (-1)%Z s ch.

(** [s.substring(0, n)] for an integer [n]: a negative end counts as 0. *)
Definition substring0 (s : jsstring) (n : Z) : jsstring :=
  take (Z.to_nat n) s.

(** [String(n)] for a non-negative integer [n]. *)
Definition decimal (n : N) : jsstring :=
  lit (NilZero.string_of_uint (N.to_uint n)).

End JS.

Import JS.

(** ** IEEE-754 doubles, as far as [maxLength * 0.7] needs them

    JavaScript numbers are binary64 floating-point numbers.  The literal
    [0.7] denotes the double [6305039478318694 * 2^-53]; the product of an
    integer [n] with it is the exact product rounded to 53 significant bits,
    to nearest, ties to even. *)

Module Double.

#[local] Open Scope Z_scope.

(** The significand of the double [0.7], in units of [2^-53]. *)
Definition seven_tenths : Z := 6305039478318694.

(** [round53 p = (m, s)]: the integer [p > 0] rounded to 53 significant
    bits is [m * 2^s]. *)
Definition round53 (p : Z) : Z * Z :=
  let s := Z.log2 p + 1 - 53 in
  if s <=? 0 then (p, 0)
  else
    let q := p / 2 ^ s in
    let r := p mod 2 ^ s in
    let half := 2 ^ (s - 1) in
    if (half <? r) || ((r =? half) && Z.odd q) then (q + 1, s) else (q, s).

(** [gt_mul_0_7 l n] is the JavaScript comparison [l > n * 0.7] for an
    integer [l] and a non-negative integer [n]: both sides are scaled by
    [2^53]. *)
Definition gt_mul_0_7 (l : Z) (n : Z) : bool :=
  let '(m, s) := round53 (n * seven_tenths) in
  m * 2 ^ s <? l * 2 ^ 53.

End Double.

(** ** TranscriptionService: the pure part *)

Section Formatter.

(** [String.prototype.toUpperCase] on a single code unit outside ASCII:
    the Unicode case mapping, which may yield several code units.  The
    table is the host's and is not reproduced. *)
Variable unicode_upper : N -> jsstring.

(** [s.charAt(0).toUpperCase()] *)
Definition charAt0_toUpperCase (s : jsstring) : jsstring :=
  match s with
  | [] => []
  | c :: _ => if c <? 128 then [ascii_upper c] else unicode_upper c
  end.

(** [TranscriptionService.formatTranscript] *)
Definition formatTranscript (transcript : jsstring) : jsstring :=
  match transcript with
  | [] => []
  | _ =>
      let formatted := trim (replace_whitespace_runs transcript) in
      let formatted :=
        if negb (bool_decide (formatted = [])) && negb (ends_with_terminal formatted)
        then formatted ++ lit "."
        else formatted in
      charAt0_toUpperCase formatted ++ drop 1 formatted
  end.

End Formatter.

(** [TranscriptionService.generateSummary], for a non-negative integer
    [maxLength]. *)
Definition generateSummary (transcript : jsstring) (maxLength : N) : jsstring :=
  match transcript with
  | [] => []
  | _ =>
      if N.of_nat (length transcript) <=? maxLength then transcript
      else
        let truncated := substring0 transcript (Z.of_N maxLength) in
        let lastSentenceEnd :=
          Z.max (Z.max (lastIndexOf truncated 46) (lastIndexOf truncated 33))
                (lastIndexOf truncated 63) in
        if Double.gt_mul_0_7 lastSentenceEnd (Z.of_N maxLength)
        then substring0 truncated (lastSentenceEnd + 1)
        else truncated ++ lit "..."
  end.

(** ** Promises

    An awaited promise is resolved with a value, rejected with a thrown
    value, or never settles. *)

Inductive Exn : Type :=
| Error (message : jsstring)   (* [new Error(message)] *)
| Thrown.                      (* any thrown value that is not an [Error] *)

Inductive Outcome (A : Type) : Type :=
| Resolved (a : A)
| Rejected (e : Exn)
| Pending.

Arguments Resolved {A} a.
Arguments Rejected {A} e.
Arguments Pending {A}.

(** The first call of [resolve] or [reject] settles a promise; later calls
    have no effect. *)
Definition settle {A} (p new : Outcome A) : Outcome A :=
  match p with
  | Pending => new
  | _ => p
  end.

(** ** Files, records and the collaborators *)

Record File := {
  file_name : jsstring;
  file_type : jsstring;   (* the declared MIME type, [file.type] *)
  file_size : N           (* [file.size], in bytes *)
}.

#[global] Instance File_eq_dec : EqDecision File.
Proof. solve_decision. Defined.

(** The values of the column [transcript_status]. *)
Inductive TranscriptStatus := pending | processing | completed | failed.

#[global] Instance TranscriptStatus_eq_dec : EqDecision TranscriptStatus.
Proof. solve_decision. Defined.

(** The object given to [insert] on the table [lecture_files]. *)
Record LectureFile := {
  lecture_id : jsstring;
  lf_file_name : jsstring;
  lf_file_type : jsstring;
  lf_file_size : N;
  file_path : jsstring;
  mime_type : jsstring;
  duration : option N;
  is_primary : bool;
  transcript : option jsstring;    (* [None] is [null] *)
  transcript_status : TranscriptStatus
}.

#[global] Instance LectureFile_eq_dec : EqDecision LectureFile.
Proof. solve_decision. Defined.

(** A stored row: the inserted object and its generated identifier. *)
Record Row := { row_id : jsstring; row_data : LectureFile }.

(** Calls made to the collaborators, in the order they are made. *)
Inductive Call : Type :=
| StorageUpload (key : jsstring)
| StorageRemove (key : jsstring)
| DbInsert (r : LectureFile)
| ProbeDuration
| LocalTranscription             (* [transcribeAudio] *)
| RemoteTranscription.           (* [transcribeWithExternalService] *)

#[global] Instance Call_eq_dec : EqDecision Call.
Proof. solve_decision. Defined.

(** The blob store (bucket [lecture-files]), the table [lecture_files], the
    calls made so far and the number of capability queries answered. *)
Record World := {
  store : gmap (list N) File;
  table : list Row;
  calls : list Call;
  queries : nat
}.

(** How a call to Supabase can fail: it returns [{ error }], or it throws. *)
Inductive Fault : Type :=
| ReturnsError (message : jsstring)
| Throws (e : Exn).

(** A final result of the recognizer: [isFinal] and the transcript of its
    first alternative. *)
Record SpeechResult := { isFinal : bool; best : jsstring }.

(** The events the audio element, the timer and the recognizer deliver
    during [transcribeAudio]. *)
Inductive MediaEvent : Type :=
| AudioLoadedData
| AudioEnded
| AudioError
| TimerFired
| RecResult (resultIndex : nat) (results : list SpeechResult)
| RecEnd
| RecError (code : jsstring).

(** The events of the audio element of [getMediaDuration]. *)
Inductive ProbeEvent : Type :=
| LoadedMetadata (floor_duration : N)   (* [Math.floor(audio.duration)] *)
| ProbeError.

(** What the environment decides during one upload. *)
Record Env := {
  now : N;                            (* [Date.now()] *)
  supported : nat -> bool;            (* the answers of [isSupported], in order *)
  media_events : list MediaEvent;
  probe_events : list ProbeEvent;
  upload_fault : option Fault;
  insert_fault : option Fault;
  remove_fault : option Fault;
  new_id : jsstring                   (* [gen_random_uuid()] *)
}.

(** ** The monad of asynchronous code over the world *)

Definition M (A : Type) : Type := World -> Outcome A * World.

Definition ret {A} (a : A) : M A := fun w => (Resolved a, w).

Definition throw {A} (e : Exn) : M A := fun w => (Rejected e, w).

(** [await m] followed by the rest of the function. *)
Definition bind {A B} (m : M A) (k : A -> M B) : M B :=
  fun w =>
    match m w with
    | (Resolved a, w') => k a w'
    | (Rejected e, w') => (Rejected e, w')
    | (Pending, w') => (Pending, w')
    end.

(** [try { m } catch (error) { h error }] *)
Definition try_catch {A} (m : M A) (h : Exn -> M A) : M A :=
  fun w =>
    match m w with
    | (Rejected e, w') => h e w'
    | r => r
    end.

Notation "'let*' x '<-' m 'in' k" := (bind m (fun x => k))
  (at level 10, x name, m at level 100, k at level 200).
Notation "'await' m 'in' k" := (bind m (fun _ => k))
  (at level 10, m at level 100, k at level 200).

Definition record_call (c : Call) : M unit :=
  fun w => (Resolved tt,
            {| store := store w; table := table w;
               calls := calls w ++ [c]; queries := queries w |}).

(** A call to a Supabase client: [{ data, error }], or a throw. *)
Inductive Reply (A : Type) : Type :=
| Data (a : A)
| Err (message : jsstring).

Arguments Data {A} a.
Arguments Err {A} message.

Definition faulty {A} (f : Fault) : M (Reply A) :=
  match f with
  | ReturnsError m => ret (Err m)
  | Throws e => throw e
  end.

(** ** TranscriptionService: the asynchronous part *)

(** The state of one call of [transcribeAudio]: the promise it returns
    ([outer]), the promise of [playAudioForRecognition] ([inner]), the local
    variable [transcript] ([heard]), and what has been done to the
    recognizer, the timers and the object URL. *)
Record Session := {
  outer : Outcome jsstring;
  inner : Outcome unit;
  heard : jsstring;
  rec_started : bool;
  rec_stopped : bool;
  timers : nat;
  url_revoked : bool
}.

Definition new_session : Session :=
  {| outer := Pending; inner := Pending; heard := [];
     rec_started := false; rec_stopped := false; timers := 0%nat;
     url_revoked := false |}.

(** The loop of [recognition.onresult]. *)
Fixpoint append_finals (results : list SpeechResult) (acc : jsstring) : jsstring :=
  match results with
  | [] => acc
  | r :: rest =>
      append_finals rest (if isFinal r then acc ++ best r ++ lit " " else acc)
  end.

(** The handlers installed by [transcribeAudio] and
    [playAudioForRecognition]. *)
Definition handle (s : Session) (ev : MediaEvent) : Session :=
  match ev with
  | AudioLoadedData =>       (* recognition.start(); audio.play() *)
      {| outer := outer s; inner := inner s; heard := heard s;
         rec_started := true; rec_stopped := rec_stopped s;
         timers := timers s; url_revoked := url_revoked s |}
  | AudioEnded =>            (* setTimeout(..., 1000) *)
      {| outer := outer s; inner := inner s; heard := heard s;
         rec_started := rec_started s; rec_stopped := rec_stopped s;
         timers := S (timers s); url_revoked := url_revoked s |}
  | TimerFired =>            (* recognition.stop(); revokeObjectURL; resolve() *)
      match timers s with
      | O => s
      | S n =>
          {| outer := outer s; inner := settle (inner s) (Resolved tt);
             heard := heard s; rec_started := rec_started s;
             rec_stopped := true; timers := n; url_revoked := true |}
      end
  | AudioError =>            (* revokeObjectURL; reject(new Error(...)) *)
      {| outer := outer s;
         inner := settle (inner s) (Rejected (Error (lit "Failed to load audio file")));
         heard := heard s; rec_started := rec_started s;
         rec_stopped := rec_stopped s; timers := timers s;
         url_revoked := true |}
  | RecResult resultIndex results =>
      {| outer := outer s; inner := inner s;
         heard := append_finals (drop resultIndex results) (heard s);
         rec_started := rec_started s; rec_stopped := rec_stopped s;
         timers := timers s; url_revoked := url_revoked s |}
  | RecEnd =>                (* resolve(transcript.trim()) *)
      {| outer := settle (outer s) (Resolved (trim (heard s)));
         inner := inner s; heard := heard s;
         rec_started := rec_started s; rec_stopped := rec_stopped s;
         timers := timers s; url_revoked := url_revoked s |}
  | RecError code =>         (* reject(new Error(`Speech recognition error: ...`)) *)
      {| outer := settle (outer s)
                    (Rejected (Error (lit "Speech recognition error: " ++ code)));
         inner := inner s; heard := heard s;
         rec_started := rec_started s; rec_stopped := rec_stopped s;
         timers := timers s; url_revoked := url_revoked s |}
  end.

Definition run_session (evs : list MediaEvent) (s : Session) : Session :=
  fold_left handle evs s.

(** The text [transcribeWithExternalService] resolves with: a template
    literal that spans four lines of the source. *)
Definition mockTranscript (name : jsstring) : jsstring :=
  lit "This is a mock transcription of the audio file " ++ dquote ++ name
    ++ dquote ++ lit ". " ++ [10]
  ++ lit "        In a real implementation, this would be replaced with actual speech-to-text conversion " ++ [10]
  ++ lit "        using an external service. The audio content would be processed and converted to text " ++ [10]
  ++ lit "        with high accuracy, including punctuation and proper formatting.".

Section Services.

Variable env : Env.

(** [TranscriptionService.isSupported]: the next answer of the runtime. *)
Definition isSupported : M bool :=
  fun w => (Resolved (supported env (queries w)),
            {| store := store w; table := table w; calls := calls w;
               queries := S (queries w) |}).

(** [TranscriptionService.transcribeAudio]: the promise settles as the
    handlers settle it while the events of the environment arrive. *)
Definition transcribeAudio (audioFile : File) : M jsstring :=
  await record_call LocalTranscription in
  let* s <- isSupported in
  if negb s
  then throw (Error (lit "Speech recognition not supported in this browser"))
  else fun w => (outer (run_session (media_events env) new_session), w).

(** [TranscriptionService.transcribeWithExternalService] *)
Definition transcribeWithExternalService (audioFile : File) : M jsstring :=
  await record_call RemoteTranscription in
  ret (mockTranscript (file_name audioFile)).

(** [TranscriptionService.transcribe].  [||] does not evaluate its right
    operand when the left one is true. *)
Definition transcribe (audioFile : File) (useExternal : bool) : M jsstring :=
  try_catch
    (let* external <- (if useExternal then ret true
              else let* s <- isSupported in ret (negb s)) in
     if external
     then transcribeWithExternalService audioFile
     else transcribeAudio audioFile)
    (fun error =>
       let* s <- isSupported in
       if s then transcribeWithExternalService audioFile
       else throw error).

End Services.

(** ** FileUploadService *)

Record FileUploadResult := {
  success : bool;
  filePath : option jsstring;
  error : option jsstring;
  fileId : option jsstring
}.

Definition failure (message : option jsstring) : FileUploadResult :=
  {| success := false; filePath := None; error := message; fileId := None |}.

Record Validation := { valid : bool; validation_error : option jsstring }.

Definition MAX_FILE_SIZE : N := 100 * 1024 * 1024.

(** The entries of [ALLOWED_TYPES], in the order of the object literal. *)
Definition ALLOWED_TYPES : list (jsstring * list jsstring) :=
  [ (lit "audio", [lit "audio/mpeg"; lit "audio/wav"; lit "audio/mp3";
                   lit "audio/webm"; lit "audio/ogg"]);
    (lit "pdf", [lit "application/pdf"]);
    (lit "presentation",
      [lit "application/vnd.ms-powerpoint";
       lit "application/vnd.openxmlformats-officedocument.presentationml.presentation"]);
    (lit "document",
      [lit "application/msword";
       lit "application/vnd.openxmlformats-officedocument.wordprocessingml.document"]);
    (lit "video", [lit "video/mp4"; lit "video/webm"; lit "video/ogg"]) ].

(** The loop of [getFileType] over the entries. *)
Fixpoint find_type (entries : list (jsstring * list jsstring)) (mimeType : jsstring)
  : option jsstring :=
  match entries with
  | [] => None
  | (type, mimeTypes) :: rest =>
      if bool_decide (mimeType ∈ mimeTypes) then Some type
      else find_type rest mimeType
  end.

(** [FileUploadService.getFileType]; [None] is [null]. *)
Definition getFileType (mimeType : jsstring) : option jsstring :=
  find_type ALLOWED_TYPES mimeType.

(** [!v] for a [string | null]: [null] and the empty string are falsy. *)
Definition falsy (v : option jsstring) : bool :=
  match v with
  | None => true
  | Some [] => true
  | Some (_ :: _) => false
  end.

(** [FileUploadService.validateFile] *)
Definition validateFile (file : File) : Validation :=
  if MAX_FILE_SIZE <? file_size file
  then {| valid := false;
          validation_error := Some (lit "File size must be less than 100MB") |}
  else
    let fileType := getFileType (file_type file) in
    if falsy fileType
    then {| valid := false;
            validation_error :=
              Some (lit "Unsupported file type. Please upload audio, PDF, PowerPoint, or Word documents.") |}
    else {| valid := true; validation_error := None |}.

(** [/[^a-zA-Z0-9.-]/]: a code unit that is replaced by an underscore. *)
Definition kept_in_path (c : N) : bool :=
  ((97 <=? c) && (c <=? 122)) || ((65 <=? c) && (c <=? 90))
  || ((48 <=? c) && (c <=? 57)) || (c =? 46) || (c =? 45).

Definition sanitize (fileName : jsstring) : jsstring :=
  map (fun c => if kept_in_path c then c else 95) fileName.

(** [FileUploadService.generateFilePath], with the value of [Date.now()]. *)
Definition generateFilePath (timestamp : N) (lectureId fileName : jsstring) : jsstring :=
  lit "lectures/" ++ lectureId ++ lit "/" ++ decimal timestamp ++ lit "_"
    ++ sanitize fileName.

(** The local variables [transcript] and [transcriptStatus]. *)
Record Locals := { l_transcript : option jsstring; l_status : TranscriptStatus }.

Section Upload.

Variable unicode_upper : N -> jsstring.
Variable env : Env.

(** [supabase.storage.from(BUCKET_NAME).upload(key, file, { upsert: false })]:
    an existing key is not overwritten. *)
Definition storage_upload (key : jsstring) (file : File) : M (Reply unit) :=
  await record_call (StorageUpload key) in
  match upload_fault env with
  | Some f => faulty f
  | None =>
      fun w =>
        match store w !! key with
        | Some _ => (Resolved (Err (lit "The resource already exists")), w)
        | None =>
            (Resolved (Data tt),
             {| store := <[key := file]> (store w); table := table w;
                calls := calls w; queries := queries w |})
        end
  end.

(** [supabase.storage.from(BUCKET_NAME).remove([key])] *)
Definition storage_remove (key : jsstring) : M (Reply unit) :=
  await record_call (StorageRemove key) in
  match remove_fault env with
  | Some f => faulty f
  | None =>
      fun w =>
        (Resolved (Data tt),
         {| store := delete key (store w); table := table w;
            calls := calls w; queries := queries w |})
  end.

(** [supabase.from('lecture_files').insert(r).select().single()] *)
Definition db_insert (r : LectureFile) : M (Reply Row) :=
  await record_call (DbInsert r) in
  match insert_fault env with
  | Some f => faulty f
  | None =>
      fun w =>
        let row := {| row_id := new_id env; row_data := r |} in
        (Resolved (Data row),
         {| store := store w; table := table w ++ [row];
            calls := calls w; queries := queries w |})
  end.

(** [FileUploadService.getMediaDuration]: the first event of the audio
    element settles the promise. *)
Definition getMediaDuration (file : File) : M N :=
  await record_call ProbeDuration in
  fun w =>
    (match probe_events env with
     | [] => Pending
     | LoadedMetadata d :: _ => Resolved d
     | ProbeError :: _ => Rejected (Error (lit "Could not load media file"))
     end, w).

(** [uploadFile], lines 99-107: the duration of audio and video files; a
    failure of the probe is logged and leaves the duration unset. *)
Definition probe_duration (file : File) (fileType : option jsstring)
  : M (option N) :=
  if bool_decide (fileType = Some (lit "audio"))
     || bool_decide (fileType = Some (lit "video"))
  then try_catch
         (let* d <- getMediaDuration file in ret (Some d))
         (fun err => ret None)
  else ret None.

(** [uploadFile], lines 110-127: the transcription of audio files, when
    the caller enabled it. *)
Definition transcribe_if_enabled (file : File) (fileType : option jsstring)
    (enableTranscription : bool) : M Locals :=
  let locals := {| l_transcript := None; l_status := pending |} in
  if enableTranscription && bool_decide (fileType = Some (lit "audio"))
  then
    let locals := {| l_transcript := l_transcript locals;
                     l_status := processing |} in
    try_catch
      (let* text <- transcribe env file false in
       let locals := {| l_transcript := Some (formatTranscript unicode_upper text);
                        l_status := l_status locals |} in
       ret {| l_transcript := l_transcript locals; l_status := completed |})
      (fun err => ret {| l_transcript := l_transcript locals;
                         l_status := failed |})
  else ret locals.

(** [uploadFile], lines 138-168: the row is inserted; when the insert
    reports an error the uploaded blob is removed, whatever [remove]
    returns. *)
Definition save_metadata (r : LectureFile) : M FileUploadResult :=
  let* inserted <- db_insert r in
  match inserted with
  | Err message =>
      await storage_remove (file_path r) in
      ret (failure (Some message))
  | Data fileRecord =>
      ret {| success := true; filePath := Some (file_path r);
             error := None; fileId := Some (row_id fileRecord) |}
  end.

(** [FileUploadService.uploadFile] *)
Definition uploadFile (file : File) (lectureId : jsstring) (isPrimary : bool)
    (enableTranscription : bool) : M FileUploadResult :=
  try_catch
    (let validation := validateFile file in
     if negb (valid validation)
     then ret (failure (validation_error validation))
     else
       let filePath := generateFilePath (now env) lectureId (file_name file) in
       let* uploaded <- storage_upload filePath file in
       match uploaded with
       | Err message => ret (failure (Some message))
       | Data _ =>
           let fileType := getFileType (file_type file) in
           let* duration <- probe_duration file fileType in
           let* locals <- transcribe_if_enabled file fileType enableTranscription in
           save_metadata
             {| lecture_id := lectureId;
                lf_file_name := file_name file;
                lf_file_type := if falsy fileType then lit "unknown"
                                else default [] fileType;
                lf_file_size := file_size file;
                file_path := filePath;
                mime_type := file_type file;
                duration := duration;
                is_primary := isPrimary;
                transcript := l_transcript locals;
                transcript_status := l_status locals |}
       end)
    (fun err =>
       ret (failure (Some match err with
                          | Error message => message
                          | Thrown => lit "Unknown error occurred"
                          end))).

End Upload.

(** * Statements of the specification and sample inputs *)

(** The MIME types of the allow-list, whatever kind they map to. *)
Definition allowed_mime_types : list jsstring :=
  concat (map snd ALLOWED_TYPES).

(** The kinds a MIME type of the allow-list is mapped to. *)
Definition kinds : list jsstring :=
  [lit "audio"; lit "pdf"; lit "presentation"; lit "document"; lit "video"].

Definition lecture_webm : File :=
  {| file_name := lit "lecture.webm"; file_type := lit "audio/webm";
     file_size := 5 * 1024 * 1024 |}.

Definition notes_txt : File :=
  {| file_name := lit "notes.txt"; file_type := lit "text/plain";
     file_size := 2048 |}.

(** The sentence of the specification that makes an unknown MIME type
    necessary and sufficient for acceptance. *)
Definition unknown_type_accepted : Prop :=
  ∀ file : File,
    valid (validateFile file) = true ↔
    getFileType (file_type file) = None ∧ (file_size file <= MAX_FILE_SIZE)%N.

(** ** The formatter, in the words of the specification *)

(** The pieces of a text between its white-space characters (some may be
    empty), and its words: the non-empty pieces. *)
Fixpoint pieces (s : jsstring) : list jsstring :=
  match s with
  | [] => [[]]
  | c :: r =>
      if is_space c then [] :: pieces r
      else match pieces r with
           | p :: ps => (c :: p) :: ps
           | [] => [[c]]
           end
  end.

Definition words (s : jsstring) : list jsstring :=
  filter (λ p, p ≠ []) (pieces s).

(** The words joined by single spaces. *)
Fixpoint unwords (ws : list jsstring) : jsstring :=
  match ws with
  | [] => []
  | w :: rest =>
      w ++ match rest with
           | [] => []
           | _ => 32 :: unwords rest
           end
  end.

(** Runs of white space collapsed to single spaces, and both ends trimmed:
    what remains is the words of the text, one space between two of them. *)
Definition normalize_spaces (text : jsstring) : jsstring :=
  unwords (words text).

(** [format]: normalize the white space, append a period when the result is
    not empty and lacks a terminal mark, capitalize the first character. *)
Definition format_spec (unicode_upper : N -> jsstring) (text : jsstring) : jsstring :=
  let t := normalize_spaces text in
  let t := if bool_decide (t ≠ [] ∧ ends_with_terminal t = false)
           then t ++ lit "." else t in
  charAt0_toUpperCase unicode_upper t ++ drop 1 t.

(** ** The summary, in the words of the specification *)

(** The greatest index of [s] that holds a character satisfying [P]. *)
Fixpoint rindex (P : N -> bool) (s : jsstring) : option nat :=
  match s with
  | [] => None
  | c :: r =>
      match rindex P r with
      | Some i => Some (S i)
      | None => if P c then Some 0%nat else None
      end
  end.

(** The position of the rightmost terminal punctuation mark. *)
Definition rightmost_terminal (s : jsstring) : option nat :=
  rindex is_terminal s.

(** The comparison [position > maxLength * 0.7] as JavaScript evaluates
    it, in double precision. *)
Definition past_threshold (position : nat) (maxLength : N) : bool :=
  Double.gt_mul_0_7 (Z.of_nat position) (Z.of_N maxLength).

(** The claim about summaries with the threshold read as the exact
    rational number [7 * N / 10]. *)
Definition summary_with_exact_threshold : Prop :=
  ∀ (text : jsstring) (maxLength : N),
    (maxLength < N.of_nat (length text))%N →
    match rightmost_terminal (take (N.to_nat maxLength) text) with
    | Some p =>
        if (7 * maxLength <? 10 * N.of_nat p)%N
        then generateSummary text maxLength = take (S p) text
        else generateSummary text maxLength
             = take (N.to_nat maxLength) text ++ lit "..."
    | None =>
        generateSummary text maxLength
        = take (N.to_nat maxLength) text ++ lit "..."
    end.

(** A text of 94 characters whose only full stop is at index 63. *)
Definition sentence_at_63 : jsstring :=
  replicate 63 97%N ++ lit "." ++ replicate 30 97%N.

(** ** Auxiliary definitions of the proofs *)

(** Trailing white space removed. *)
Definition trim_end (s : jsstring) : jsstring :=
  rev (drop_spaces (rev s)).

Definition head_space (s : jsstring) : bool :=
  match s with
  | c :: _ => is_space c
  | [] => false
  end.

(** The separator and the rest of the words after a first word. *)
Definition more_words (ws : list jsstring) : jsstring :=
  match ws with
  | [] => []
  | _ => 32 :: unwords ws
  end.

Definition index_or_minus_1 (o : option nat) : Z :=
  match o with
  | Some i => Z.of_nat i
  | None => (-1)%Z
  end.

(** The events by which the recognizer settles the promise of
    [transcribeAudio]. *)
Definition recognizer_settles (ev : MediaEvent) : bool :=
  match ev with
  | RecEnd | RecError _ => true
  | _ => false
  end.

(** The world after one capability query. *)
Definition queried (w : World) : World :=
  {| store := store w; table := table w; calls := calls w;
     queries := S (queries w) |}.

(** An empty world. *)
Definition empty_world : World :=
  {| store := ∅; table := []; calls := []; queries := 0 |}.

(** A runtime with speech recognition in which nothing fails; the
    recognizer hears nothing and ends after the audio has been played. *)
Definition silent_env : Env :=
  {| now := 1700000000000;
     supported := λ _, true;
     media_events := [AudioLoadedData; AudioEnded; TimerFired; RecEnd];
     probe_events := [LoadedMetadata 12];
     upload_fault := None; insert_fault := None; remove_fault := None;
     new_id := lit "7f9c2e1a" |}.

(** The same runtime with an audio element that fails to load the file. *)
Definition broken_audio_env : Env :=
  {| now := 1700000000000;
     supported := λ _, true;
     media_events := [AudioError];
     probe_events := [LoadedMetadata 12];
     upload_fault := None; insert_fault := None; remove_fault := None;
     new_id := lit "7f9c2e1a" |}.

(** The same runtime with a recognizer that reports [no-speech]. *)
Definition no_speech_env : Env :=
  {| now := 1700000000000;
     supported := λ _, true;
     media_events := [AudioLoadedData; RecError (lit "no-speech"); RecEnd];
     probe_events := [LoadedMetadata 12];
     upload_fault := None; insert_fault := None; remove_fault := None;
     new_id := lit "7f9c2e1a" |}.

(** The message [uploadFile] reports for a caught value. *)
Definition caught_message (e : Exn) : jsstring :=
  match e with
  | Error message => message
  | Thrown => lit "Unknown error occurred"
  end.

(** What [uploadFile] hands to [insert] as transcript and status: nothing
    and [pending] when no transcription was attempted, nothing and [failed]
    when it was rejected, and the formatted text and [completed] when
    [transcribe] resolved with a text. *)
Definition transcript_fields (unicode_upper : N -> jsstring) (env : Env)
    (file : File) (r : LectureFile) : Prop :=
  (transcript r = None ∧ transcript_status r = pending)
  ∨ (transcript r = None ∧ transcript_status r = failed)
  ∨ ∃ w0 raw,
      (transcribe env file false w0).1 = Resolved raw
      ∧ transcript r = Some (formatTranscript unicode_upper raw)
      ∧ transcript_status r = completed.

(** Calls that touch neither the blob store nor the table. *)
Definition is_media_call (c : Call) : Prop :=
  c = ProbeDuration ∨ c = LocalTranscription ∨ c = RemoteTranscription.

(** The rows a run has added to the table. *)
Definition rows_added (w w' : World) : list Row :=
  drop (length (table w)) (table w').

(** The calls a run has made. *)
Definition calls_made (w w' : World) : list Call :=
  drop (length (calls w)) (calls w').

(** A run from [w] to [w'] that made the calls [made] and changed neither
    the blob store nor the table. *)
Definition only_calls (w w' : World) (made : list Call) : Prop :=
  store w' = store w ∧ table w' = table w ∧ calls w' = calls w ++ made.

(** The world right after a successful blob write. *)
Definition uploaded_world (w : World) (key : jsstring) (file : File) : World :=
  {| store := <[key := file]> (store w); table := table w;
     calls := calls w ++ [StorageUpload key]; queries := queries w |}.

(** The outer [catch] of [uploadFile]: a rejection becomes a failure
    result. *)
Definition caught (r : Outcome FileUploadResult * World)
  : Outcome FileUploadResult * World :=
  match r with
  | (Rejected e, w) => (Resolved (failure (Some (caught_message e))), w)
  | r => r
  end.

(** The invariant of the specification: a row persisted with status
    [completed] holds a transcript that is not null and not empty. *)
Definition completed_has_text : Prop :=
  ∀ (unicode_upper : N -> jsstring) (env : Env) (file : File)
    (lectureId : jsstring) (isPrimary enable : bool) (w : World) (row : Row),
    row ∈ rows_added w
            (uploadFile unicode_upper env file lectureId isPrimary enable w).2 →
    transcript_status (row_data row) = completed →
    ∃ text, transcript (row_data row) = Some text ∧ text ≠ [].

(** The claim that after a failed insert the blob store never holds the
    generated key. *)
Definition failed_insert_leaves_no_blob : Prop :=
  ∀ (unicode_upper : N -> jsstring) (env : Env) (file : File)
    (lectureId : jsstring) (isPrimary enable : bool) (w : World)
    (message : jsstring),
    let key := generateFilePath (now env) lectureId (file_name file) in
    let r := uploadFile unicode_upper env file lectureId isPrimary enable w in
    valid (validateFile file) = true →
    upload_fault env = None →
    store w !! key = None →
    insert_fault env = Some (ReturnsError message) →
    (∃ lf, DbInsert lf ∈ calls_made w r.2) →
    (∃ result, r.1 = Resolved result ∧ success result = false)
    ∧ StorageRemove key ∈ calls_made w r.2
    ∧ rows_added w r.2 = []
    ∧ store r.2 !! key = None.

Definition slides_pdf : File :=
  {| file_name := lit "slides.pdf"; file_type := lit "application/pdf";
     file_size := 2 * 1024 * 1024 |}.

(** A runtime in which the insert is refused by the database and the
    removal of the blob is refused by the store. *)
Definition refusing_env : Env :=
  {| now := 1700000000000;
     supported := λ _, true;
     media_events := [];
     probe_events := [];
     upload_fault := None;
     insert_fault := Some (ReturnsError (lit "new row violates row-level security policy"));
     remove_fault := Some (ReturnsError (lit "Bucket not found"));
     new_id := lit "7f9c2e1a" |}.

(** The same runtime with a store that removes the blob. *)
Definition rejecting_env : Env :=
  {| now := 1700000000000;
     supported := λ _, true;
     media_events := [];
     probe_events := [];
     upload_fault := None;
     insert_fault := Some (ReturnsError (lit "new row violates row-level security policy"));
     remove_fault := None;
     new_id := lit "7f9c2e1a" |}.

Definition oversized : File :=
  {| file_name := lit "recording.wav"; file_type := lit "audio/wav";
     file_size := 150 * 1024 * 1024 |}.

(** The row the silent runtime persists for [lecture_webm]. *)
Definition silent_row : Row :=
  {| row_id := new_id silent_env;
     row_data :=
       {| lecture_id := lit "lecture-1";
          lf_file_name := lit "lecture.webm";
          lf_file_type := lit "audio";
          lf_file_size := 5 * 1024 * 1024;
          file_path := lit "lectures/lecture-1/1700000000000_lecture.webm";
          mime_type := lit "audio/webm";
          duration := Some 12%N;
          is_primary := false;
          transcript := Some [];
          transcript_status := completed |} |}.

(** A runtime without speech recognition in which nothing fails. *)
Definition unsupported_env : Env :=
  {| now := 1700000000000;
     supported := λ _, false;
     media_events := [];
     probe_events := [LoadedMetadata 12];
     upload_fault := None; insert_fault := None; remove_fault := None;
     new_id := lit "7f9c2e1a" |}.

(** * Further properties: definitions *)

(** A word: not empty and without white space. *)
Definition is_word (w : jsstring) : Prop :=
  w ≠ [] ∧ Forall (λ c, is_space c = false) w.

(** The texts [formatTranscript] is applied to in practice: the first
    character that is not white space, if any, is an ASCII character. *)
Definition starts_in_ascii (text : jsstring) : Prop :=
  ∀ c, head (drop_spaces text) = Some c → (c < 128)%N.

(** The normalized text with its period: [format] before the first
    character is capitalized. *)
Definition punctuated (text : jsstring) : jsstring :=
  let t := normalize_spaces text in
  if bool_decide (t ≠ [] ∧ ends_with_terminal t = false)
  then t ++ lit "." else t.

(** The text the recognizer's final results add to the transcript: the
    best alternative of each final result, each followed by a space. *)
Definition final_fragments (results : list SpeechResult) : jsstring :=
  flat_map (λ r, if isFinal r then best r ++ lit " " else []) results.

(** The text heard during a list of events: the final results of every
    result event, from its [resultIndex] on. *)
Definition fragments (evs : list MediaEvent) : jsstring :=
  flat_map (λ ev, match ev with
                  | RecResult resultIndex results =>
                      final_fragments (drop resultIndex results)
                  | _ => []
                  end) evs.

(** A runtime whose recognizer hears two final fragments around an interim
    one, ends, and then reports an error. *)
Definition talkative_env : Env :=
  {| now := 1700000000000;
     supported := λ _, true;
     media_events :=
       [AudioLoadedData;
        RecResult 0 [{| isFinal := true; best := lit " welcome to" |}];
        RecResult 1 [{| isFinal := true; best := lit " welcome to" |};
                     {| isFinal := false; best := lit "the curse" |};
                     {| isFinal := true; best := lit "the course " |}];
        AudioEnded; TimerFired; RecEnd; RecError (lit "aborted")];
     probe_events := [LoadedMetadata 12];
     upload_fault := None; insert_fault := None; remove_fault := None;
     new_id := lit "7f9c2e1a" |}.

(** A runtime that loses speech recognition after two queries, with a
    recognizer that reports [no-speech]. *)
Definition fading_env : Env :=
  {| now := 1700000000000;
     supported := λ n, (n <? 2)%nat;
     media_events := [AudioLoadedData; RecError (lit "no-speech"); RecEnd];
     probe_events := [LoadedMetadata 12];
     upload_fault := None; insert_fault := None; remove_fault := None;
     new_id := lit "7f9c2e1a" |}.

(** The object [uploadFile] hands to [insert], given the duration and the
    local variables gathered before. *)
Definition upload_row (lectureId : jsstring) (file : File) (key : jsstring)
    (isPrimary : bool) (d : option N) (locals : Locals) : LectureFile :=
  {| lecture_id := lectureId;
     lf_file_name := file_name file;
     lf_file_type := if falsy (getFileType (file_type file)) then lit "unknown"
                     else default [] (getFileType (file_type file));
     lf_file_size := file_size file;
     file_path := key;
     mime_type := file_type file;
     duration := d;
     is_primary := isPrimary;
     transcript := l_transcript locals;
     transcript_status := l_status locals |}.

(** What the media steps of [uploadFile] did: the calls [made], the
    duration [d] and the local variables [locals] they ended with. *)
Definition media_steps (unicode_upper : N -> jsstring) (env : Env) (file : File)
    (enable : bool) (made : list Call) (d : option N) (locals : Locals) : Prop :=
  let kind := getFileType (file_type file) in
  (ProbeDuration ∈ made ↔ kind = Some (lit "audio") ∨ kind = Some (lit "video"))
  ∧ (d ≠ None → ProbeDuration ∈ made)
  ∧ (LocalTranscription ∈ made ∨ RemoteTranscription ∈ made →
       enable = true ∧ kind = Some (lit "audio"))
  ∧ (locals = {| l_transcript := None; l_status := pending |}
       ∧ (enable = false ∨ kind ≠ Some (lit "audio"))
     ∨ enable = true
       ∧ kind = Some (lit "audio")
       ∧ ((∃ w0 e, (transcribe env file false w0).1 = Rejected e)
            ∧ locals = {| l_transcript := None; l_status := failed |}
          ∨ ∃ w0 raw,
              (transcribe env file false w0).1 = Resolved raw
              ∧ locals = {| l_transcript := Some (formatTranscript unicode_upper raw);
                            l_status := completed |})).

(** The media calls of [uploadFile] are gated: the probe is called exactly
    for audio and video files, a transcription only for an audio file when
    the caller enabled it. *)
Definition media_calls_gated (file : File) (enable : bool) (made : list Call)
  : Prop :=
  let kind := getFileType (file_type file) in
  (ProbeDuration ∈ made ↔ kind = Some (lit "audio") ∨ kind = Some (lit "video"))
  ∧ (LocalTranscription ∈ made ∨ RemoteTranscription ∈ made →
       enable = true ∧ kind = Some (lit "audio")).

(** The world after a blob write and the media calls [made]. *)
Definition stored_world (w : World) (key : jsstring) (file : File)
    (made : list Call) (q : nat) : World :=
  {| store := <[key := file]> (store w); table := table w;
     calls := (calls w ++ [StorageUpload key]) ++ made; queries := q |}.

(** The world after a refused blob write. *)
Definition refused_world (w : World) (key : jsstring) : World :=
  {| store := store w; table := table w;
     calls := calls w ++ [StorageUpload key]; queries := queries w |}.

(** The three ways a run of [uploadFile] goes: the file is invalid; the
    blob write is refused; or the blob is written and the media steps
    run, after which the row is saved unless a step never settles. *)
Definition upload_run (unicode_upper : N -> jsstring) (env : Env) (file : File)
    (lectureId : jsstring) (isPrimary enable : bool) (w : World)
    (r : Outcome FileUploadResult * World) : Prop :=
  let key := generateFilePath (now env) lectureId (file_name file) in
  (valid (validateFile file) = false
   ∧ r = (Resolved (failure (validation_error (validateFile file))), w))
  ∨ (valid (validateFile file) = true
     ∧ (is_Some (upload_fault env) ∨ is_Some (store w !! key))
     ∧ ∃ message, r = (Resolved (failure (Some message)), refused_world w key))
  ∨ (valid (validateFile file) = true
     ∧ upload_fault env = None
     ∧ store w !! key = None
     ∧ ∃ made q,
         Forall is_media_call made
         ∧ media_calls_gated file enable made
         ∧ (r = (Pending, stored_world w key file made q)
            ∨ ∃ d locals,
                media_steps unicode_upper env file enable made d locals
                ∧ r = caught (save_metadata env
                                (upload_row lectureId file key isPrimary d locals)
                                (stored_world w key file made q)))).

(** A runtime with speech recognition whose database throws on insert. *)
Definition throwing_env : Env :=
  {| now := 1700000000000;
     supported := λ _, true;
     media_events := [];
     probe_events := [];
     upload_fault := None;
     insert_fault := Some (Throws (Error (lit "Failed to fetch")));
     remove_fault := None;
     new_id := lit "7f9c2e1a" |}.

Definition lecture_mp4 : File :=
  {| file_name := lit "lecture.mp4"; file_type := lit "video/mp4";
     file_size := 40 * 1024 * 1024 |}.

(** A decimal digit. *)
Definition is_digit (c : N) : Prop := (48 <= c <= 57)%N.

(** Two files whose names differ in a character that is replaced. *)
Definition my_slides : File :=
  {| file_name := lit "my slides.pdf"; file_type := lit "application/pdf";
     file_size := 2 * 1024 * 1024 |}.

Definition my_slides_renamed : File :=
  {| file_name := lit "my_slides.pdf"; file_type := lit "application/pdf";
     file_size := 3 * 1024 * 1024 |}.

(** * FileUploadService: deleting, listing and previewing *)

(** What the database decides during [deleteFile] and [getLectureFiles]:
    the faults of the three queries, and the message PostgREST gives when
    [single] does not find exactly one row. *)
Record DbEnv := {
  select_fault : option Fault;    (* [select('file_path').eq('id', ...)] *)
  delete_fault : option Fault;    (* [delete().eq('id', ...)] *)
  list_fault : option Fault;      (* [select('*').eq('lecture_id', ...)] *)
  not_single_row : jsstring
}.

Section Delete.

Variable env : Env.
Variable db : DbEnv.

(** [supabase.from('lecture_files').select('file_path').eq('id', fileId).single()] *)
Definition db_select_path (fileId : jsstring) : M (Reply jsstring) :=
  match select_fault db with
  | Some f => faulty f
  | None =>
      fun w =>
        match filter (λ row, row_id row = fileId) (table w) with
        | [row] => (Resolved (Data (file_path (row_data row))), w)
        | _ => (Resolved (Err (not_single_row db)), w)
        end
  end.

(** [supabase.from('lecture_files').delete().eq('id', fileId)] *)
Definition db_delete (fileId : jsstring) : M (Reply unit) :=
  match delete_fault db with
  | Some f => faulty f
  | None =>
      fun w =>
        (Resolved (Data tt),
         {| store := store w;
            table := filter (λ row, row_id row ≠ fileId) (table w);
            calls := calls w; queries := queries w |})
  end.

(** [FileUploadService.deleteFile]: an error of the storage removal is only
    logged; every thrown value makes the result [false]. *)
Definition deleteFile (fileId : jsstring) : M bool :=
  try_catch
    (let* fetched <- db_select_path fileId in
     match fetched with
     | Err message => throw (Error message)
     | Data path =>
         await storage_remove env path in
         let* deleted <- db_delete fileId in
         match deleted with
         | Err message => throw (Error message)
         | Data _ => ret true
         end
     end)
    (fun err => ret false).

(** [supabase.storage.from(BUCKET_NAME).getPublicUrl(filePath)]: the URL
    is built by the client without a request. *)
Variable publicUrl : jsstring -> jsstring.

(** [select('*').eq('lecture_id', lectureId).order('is_primary', { ascending:
    false }).order('created_at', { ascending: true })]: the rows of the
    lecture, the primary ones first, each group in the order of insertion. *)
Definition db_select_lecture (lectureId : jsstring) : M (Reply (list Row)) :=
  match list_fault db with
  | Some f => faulty f
  | None =>
      fun w =>
        let rows := filter (λ row, lecture_id (row_data row) = lectureId) (table w) in
        (Resolved (Data (filter (λ row, is_primary (row_data row) = true) rows
                         ++ filter (λ row, is_primary (row_data row) ≠ true) rows)),
         w)
  end.

(** [FileUploadService.getLectureFiles]: every row with its public URL, or
    the empty list when the query fails. *)
Definition getLectureFiles (lectureId : jsstring) : M (list (Row * jsstring)) :=
  try_catch
    (let* reply <- db_select_lecture lectureId in
     match reply with
     | Err message => throw (Error message)
     | Data data =>
         ret (map (λ file, (file, publicUrl (file_path (row_data file)))) data)
     end)
    (fun err => ret []).

End Delete.

Module FileUploadService.

(** [FileUploadService.transcribeAudio]: the formatted transcript, for the
    preview; an error is logged and thrown again. *)
Definition transcribeAudio (unicode_upper : N -> jsstring) (env : Env)
    (audioFile : File) : M jsstring :=
  try_catch
    (let* transcript <- transcribe env audioFile false in
     ret (formatTranscript unicode_upper transcript))
    (fun err => throw err).

End FileUploadService.

(** A database in which no query fails. *)
Definition sound_db : DbEnv :=
  {| select_fault := None; delete_fault := None; list_fault := None;
     not_single_row := lit "JSON object requested, multiple (or no) rows returned" |}.

(** A database that refuses to delete. *)
Definition undeleting_db : DbEnv :=
  {| select_fault := None;
     delete_fault := Some (ReturnsError (lit "permission denied for table lecture_files"));
     list_fault := None;
     not_single_row := lit "JSON object requested, multiple (or no) rows returned" |}.

(** The identifiers of a table are distinct. *)
Definition unique_ids (rows : list Row) : Prop :=
  NoDup (map row_id rows).

(** [s.startsWith(prefix)] *)
Definition startsWith (s prefix : jsstring) : bool :=
  bool_decide (take (length prefix) s = prefix).

(** * The upload form: choosing the primary file *)

(** The row with its [is_primary] column updated. *)
Definition with_primary (b : bool) (row : Row) : Row :=
  {| row_id := row_id row;
     row_data :=
       {| lecture_id := lecture_id (row_data row);
          lf_file_name := lf_file_name (row_data row);
          lf_file_type := lf_file_type (row_data row);
          lf_file_size := lf_file_size (row_data row);
          file_path := file_path (row_data row);
          mime_type := mime_type (row_data row);
          duration := duration (row_data row);
          is_primary := b;
          transcript := transcript (row_data row);
          transcript_status := transcript_status (row_data row) |} |}.

Section SetPrimary.

(** The faults of the two updates. *)
Variable clear_fault : option Fault.
Variable set_fault : option Fault.

(** [update({ is_primary: false }).eq('lecture_id', lectureId)] *)
Definition db_clear_primary (lectureId : jsstring) : M (Reply unit) :=
  match clear_fault with
  | Some f => faulty f
  | None =>
      fun w =>
        (Resolved (Data tt),
         {| store := store w;
            table := map (λ row, if bool_decide (lecture_id (row_data row) = lectureId)
                                 then with_primary false row else row) (table w);
            calls := calls w; queries := queries w |})
  end.

(** [update({ is_primary: true }).eq('id', fileId)] *)
Definition db_set_primary (fileId : jsstring) : M (Reply unit) :=
  match set_fault with
  | Some f => faulty f
  | None =>
      fun w =>
        (Resolved (Data tt),
         {| store := store w;
            table := map (λ row, if bool_decide (row_id row = fileId)
                                 then with_primary true row else row) (table w);
            calls := calls w; queries := queries w |})
  end.

(** [setPrimaryFile] of the upload form, as far as the database goes: the
    result of the first update is not looked at; an error of the second is
    thrown, and every thrown value ends in the error toast ([false]). *)
Definition setPrimaryFile (lectureId fileId : jsstring) : M bool :=
  try_catch
    (await db_clear_primary lectureId in
     let* updated <- db_set_primary fileId in
     match updated with
     | Err message => throw (Error message)
     | Data _ => ret true
     end)
    (fun err => ret false).

End SetPrimary.

(** * Properties *)

(** ** Validation *)

Lemma find_type_None entries mimeType :
  find_type entries mimeType = None ↔ mimeType ∉ concat (map snd entries).
Proof.
  induction entries as [|[type mimeTypes] rest IH]; simpl.
  - split; [intros _; apply not_elem_of_nil | done].
  - rewrite elem_of_app. case_bool_decide as Hin.
    + split; [done | intros Hn; destruct Hn; by left].
    + rewrite IH. tauto.
Qed.

Lemma find_type_Some entries mimeType type :
  find_type entries mimeType = Some type → type ∈ map fst entries.
Proof.
  induction entries as [|[t mimeTypes] rest IH]; simpl; [done|].
  case_bool_decide as Hd; intros Heq.
  - injection Heq as <-. apply list_elem_of_here.
  - apply list_elem_of_further; auto.
Qed.

Lemma getFileType_kind mimeType type :
  getFileType mimeType = Some type → type ∈ kinds.
Proof. intros H. apply (find_type_Some _ _ _ H). Qed.

Lemma kinds_not_empty type : type ∈ kinds → type ≠ [].
Proof.
  unfold kinds. rewrite !elem_of_cons, elem_of_nil.
  intros [->|[->|[->|[->|[->|[]]]]]]; discriminate.
Qed.

(** A kind returned by [getFileType] is truthy: [!fileType] only tests for
    [null]. *)
Lemma falsy_getFileType mimeType :
  falsy (getFileType mimeType) = true ↔ getFileType mimeType = None.
Proof.
  destruct (getFileType mimeType) as [type|] eqn:E; simpl; [|done].
  pose proof (kinds_not_empty _ (getFileType_kind _ _ E)).
  destruct type; [done|]. split; discriminate.
Qed.

Lemma validateFile_valid file :
  valid (validateFile file) = true ↔
  (file_size file <= MAX_FILE_SIZE)%N ∧ getFileType (file_type file) ≠ None.
Proof.
  unfold validateFile.
  destruct (N.ltb_spec MAX_FILE_SIZE (file_size file)) as [Hs|Hs]; simpl.
  - split; [discriminate | lia].
  - destruct (falsy (getFileType (file_type file))) eqn:Hf; simpl.
    + apply falsy_getFileType in Hf. split; [discriminate | tauto].
    + split; [|done]. intros _. split; [done|].
      intros Hn. apply falsy_getFileType in Hn. congruence.
Qed.

Lemma validateFile_invalid_message file :
  valid (validateFile file) = false →
  ∃ message, validation_error (validateFile file) = Some message ∧ message ≠ [].
Proof.
  unfold validateFile.
  destruct (MAX_FILE_SIZE <? file_size file); simpl.
  - intros _. eexists. split; [reflexivity | discriminate].
  - destruct (falsy (getFileType (file_type file))); simpl; [|discriminate].
    intros _. eexists. split; [reflexivity | discriminate].
Qed.

(** C2.  [validateFile] accepts a file if and only if its size is at most
    100 MiB (104857600 bytes) and its declared MIME type is in the
    allow-list; the type is then mapped to one of the kinds audio, pdf,
    presentation, document and video; a file that is not accepted gets an
    invalid result with an error message. *)
Theorem validateFile_accepts_iff (file : File) :
  (valid (validateFile file) = true ↔
     (file_size file <= 104857600)%N ∧ file_type file ∈ allowed_mime_types)
  ∧ (valid (validateFile file) = true →
       ∃ type, getFileType (file_type file) = Some type ∧ type ∈ kinds)
  ∧ (valid (validateFile file) = false →
       ∃ message,
         validation_error (validateFile file) = Some message ∧ message ≠ []).
Proof.
  split; [|split].
  - rewrite validateFile_valid. unfold getFileType, allowed_mime_types.
    change MAX_FILE_SIZE with 104857600%N.
    split; intros [Hs Ht]; split; try done.
    + destruct (decide (file_type file ∈ concat (map snd ALLOWED_TYPES))) as [|Hn];
        [done|]. by apply find_type_None in Hn.
    + intros Hn. by apply find_type_None in Hn.
  - intros Hv. apply validateFile_valid in Hv as [_ Ht].
    destruct (getFileType (file_type file)) as [type|] eqn:E; [|done].
    exists type. split; [done | by apply getFileType_kind in E].
  - apply validateFile_invalid_message.
Qed.

Lemma validateFile_accepts_iff_witness :
  valid (validateFile lecture_webm) = true
  ∧ ∃ type, getFileType (file_type lecture_webm) = Some type ∧ type ∈ kinds.
Proof.
  split; [reflexivity|].
  apply (proj1 (proj2 (validateFile_accepts_iff lecture_webm))). reflexivity.
Defined.

(** C9, as stated, fails: a small file of an unknown MIME type is rejected. *)
Lemma unknown_type_not_accepted : ¬ unknown_type_accepted.
Proof.
  intros H. specialize (H notes_txt).
  assert (Hv : valid (validateFile notes_txt) = true).
  { apply H. split; [reflexivity | vm_compute; discriminate]. }
  vm_compute in Hv. discriminate.
Qed.

(** C9, amended.  A MIME type that [getFileType] recognizes, together with
    a byte size within the bound, is necessary and sufficient for
    [validateFile] to accept the file. *)
Theorem validateFile_known_type_iff (file : File) :
  valid (validateFile file) = true ↔
  is_Some (getFileType (file_type file)) ∧ (file_size file <= MAX_FILE_SIZE)%N.
Proof.
  rewrite validateFile_valid, <- not_eq_None_Some. tauto.
Qed.

(** ** The formatter *)

Lemma drop_spaces_replace_runs b s :
  drop_spaces (replace_runs b s) = replace_runs true s.
Proof.
  revert b. induction s as [|c r IH]; intros b; simpl; [done|].
  destruct (is_space c) eqn:Hc.
  - destruct b; simpl; [apply IH|].
    change (is_space 32) with true. simpl. apply IH.
  - simpl. by rewrite Hc.
Qed.

Lemma drop_spaces_snoc l c :
  drop_spaces (l ++ [c]) =
  match drop_spaces l with
  | [] => if is_space c then [] else [c]
  | t => t ++ [c]
  end.
Proof.
  induction l as [|x l IH]; simpl; [done|].
  destruct (is_space x); [apply IH | done].
Qed.

Lemma trim_end_cons c r :
  trim_end (c :: r) =
  match trim_end r with
  | [] => if is_space c then [] else [c]
  | t => c :: t
  end.
Proof.
  unfold trim_end. simpl. rewrite drop_spaces_snoc.
  destruct (drop_spaces (rev r)) as [|x t]; simpl.
  - by destruct (is_space c).
  - rewrite rev_app_distr. simpl.
    destruct (rev t ++ [x]) eqn:E; [by destruct (rev t)|done].
Qed.

Lemma trim_end_cons_keep c r :
  is_space c = false → trim_end (c :: r) = c :: trim_end r.
Proof. intros Hc. rewrite trim_end_cons, Hc. by destruct (trim_end r). Qed.

Lemma trim_trim_end s : trim s = trim_end (drop_spaces s).
Proof. reflexivity. Qed.

Lemma pieces_not_nil s : pieces s ≠ [].
Proof.
  destruct s as [|c r]; simpl; [done|].
  destruct (is_space c); [done|]. by destruct (pieces r).
Qed.

Lemma unwords_cons w ws : unwords (w :: ws) = w ++ more_words ws.
Proof. by destruct ws. Qed.

Lemma words_no_empty s : Forall (λ p, p ≠ []) (words s).
Proof. apply Forall_forall. intros p Hp. by apply list_elem_of_filter in Hp as [? _]. Qed.

Lemma unwords_nil_inv ws : Forall (λ p, p ≠ []) ws → unwords ws = [] → ws = [].
Proof.
  intros Hall Hu. destruct ws as [|w ws]; [done|].
  apply Forall_cons in Hall as [Hw _]. rewrite unwords_cons in Hu.
  by destruct w.
Qed.

(** After a character that is kept, the normal form goes on with the
    trimmed and collapsed rest. *)
Lemma normalize_spaces_cons c r :
  is_space c = false →
  normalize_spaces (c :: r) =
  c :: (if head_space r
        then more_words (words r)
        else normalize_spaces r).
Proof.
  intros Hc. unfold normalize_spaces, words. simpl. rewrite Hc.
  destruct r as [|c' r']; simpl; [done|].
  destruct (is_space c') eqn:Hc'.
  - rewrite filter_cons_True by done. rewrite filter_cons_False by (by intros H; apply H).
    by rewrite unwords_cons.
  - destruct (pieces r') as [|p ps] eqn:Ep; [by apply pieces_not_nil in Ep|].
    rewrite !filter_cons_True by done. by rewrite !unwords_cons.
Qed.

Lemma normalize_spaces_skip c r :
  is_space c = true → normalize_spaces (c :: r) = normalize_spaces r.
Proof.
  intros Hc. unfold normalize_spaces, words. simpl. rewrite Hc.
  by rewrite filter_cons_False by (by intros H; apply H).
Qed.

Lemma trim_end_replace_runs s :
  trim_end (replace_runs true s) = normalize_spaces s
  ∧ trim_end (replace_runs false s) =
      (if head_space s then more_words (words s) else normalize_spaces s).
Proof.
  induction s as [|c r [IHt IHf]]; [done|]. simpl.
  destruct (is_space c) eqn:Hc.
  - rewrite normalize_spaces_skip by done. split; [done|].
    rewrite trim_end_cons, IHt. change (is_space 32) with true.
    assert (Hw : words (c :: r) = words r).
    { unfold words. simpl. rewrite Hc.
      by rewrite filter_cons_False by (by intros H; apply H). }
    rewrite Hw. unfold normalize_spaces.
    destruct (words r) as [|w ws] eqn:Ew; [done|].
    change (more_words (w :: ws)) with (32 :: unwords (w :: ws)).
    destruct (unwords (w :: ws)) eqn:Eu; [|done].
    apply unwords_nil_inv in Eu; [done|]. rewrite <- Ew. apply words_no_empty.
  - rewrite trim_end_cons_keep, IHf, normalize_spaces_cons by done. done.
Qed.

(** The regular expression and [trim] of the source compute the normal
    form of the specification. *)
Lemma trim_replace_whitespace_runs s :
  trim (replace_whitespace_runs s) = normalize_spaces s.
Proof.
  unfold replace_whitespace_runs.
  rewrite trim_trim_end, drop_spaces_replace_runs.
  apply trim_end_replace_runs.
Qed.

Lemma formatTranscript_format_spec unicode_upper text :
  formatTranscript unicode_upper text = format_spec unicode_upper text.
Proof.
  unfold formatTranscript, format_spec.
  destruct text as [|c r]; [done|].
  rewrite trim_replace_whitespace_runs.
  set (t := normalize_spaces (c :: r)).
  destruct (ends_with_terminal t) eqn:Ht; simpl.
  - rewrite andb_false_r. rewrite bool_decide_eq_false_2; [done|]. by intros [_ ?].
  - rewrite andb_true_r. destruct (decide (t = [])) as [E|E].
    + rewrite (bool_decide_eq_true_2 _ E). simpl.
      rewrite bool_decide_eq_false_2; [done|]. by intros [? _].
    + rewrite (bool_decide_eq_false_2 _ E). simpl.
      by rewrite bool_decide_eq_true_2.
Qed.

(** C7.  [formatTranscript] collapses the runs of white space to single
    spaces and trims both ends, appends a period exactly when the result is
    not empty and lacks a terminal mark, and capitalizes the first
    character; the empty input gives the empty output; and the two examples
    of the specification evaluate as it says. *)
Theorem formatTranscript_refines_format (unicode_upper : N -> jsstring) :
  (∀ text, formatTranscript unicode_upper text = format_spec unicode_upper text)
  ∧ formatTranscript unicode_upper [] = []
  ∧ formatTranscript unicode_upper (lit "hello world") = lit "Hello world."
  ∧ formatTranscript unicode_upper (lit "Already punctuated!")
    = lit "Already punctuated!".
Proof.
  split; [apply formatTranscript_format_spec|]. by vm_compute.
Qed.

(** ** The threshold of the summary *)

Module DoubleFacts.

#[local] Open Scope Z_scope.
Import Double.

(** Rounding to 53 bits moves a positive integer by at most half a unit
    in the last place, that is by at most [p / 2^53]. *)
Lemma round53_error p :
  0 <= p →
  let '(m, s) := round53 p in
  2 ^ 53 * (m * 2 ^ s - p) <= p ∧ 2 ^ 53 * (p - m * 2 ^ s) <= p.
Proof.
  intros Hp. unfold round53.
  destruct (Z.leb_spec (Z.log2 p + 1 - 53) 0) as [Hs|Hs].
  - rewrite Z.pow_0_r. lia.
  - assert (Hpos : 0 < p).
    { destruct (Z.eq_dec p 0) as [->|]; [|lia]. cbn in Hs. lia. }
    set (s := Z.log2 p + 1 - 53) in *.
    pose proof (Z.log2_spec p Hpos) as [Hlo _].
    assert (Hl : Z.log2 p = s - 1 + 53) by lia.
    rewrite Hl in Hlo. rewrite Z.pow_add_r in Hlo by lia.
    assert (H2 : 2 ^ s = 2 * 2 ^ (s - 1)).
    { replace s with (s - 1 + 1) at 1 by lia.
      rewrite Z.pow_add_r by lia. lia. }
    assert (Hh : 0 < 2 ^ (s - 1)) by (apply Z.pow_pos_nonneg; lia).
    pose proof (Z.div_mod p (2 ^ s) ltac:(lia)) as Hdm.
    pose proof (Z.mod_pos_bound p (2 ^ s) ltac:(lia)) as Hr.
    set (h := 2 ^ (s - 1)) in *. set (q := p / 2 ^ s) in *.
    set (r := p mod 2 ^ s) in *.
    destruct ((h <? r) || ((r =? h) && Z.odd q)) eqn:Hup.
    + assert (h <= r).
      { apply orb_true_iff in Hup as [Hup|Hup]; [lia|].
        apply andb_true_iff in Hup as [Hup _]. lia. }
      nia.
    + apply orb_false_iff in Hup as [Hup _]. nia.
Qed.

Lemma gt_mul_0_7_negative l n : l < 0 → 0 <= n → gt_mul_0_7 l n = false.
Proof.
  intros Hl Hn. unfold gt_mul_0_7.
  pose proof (round53_error (n * seven_tenths)) as He.
  destruct (round53 (n * seven_tenths)) as [m s].
  unfold seven_tenths in *. apply Z.ltb_ge. lia.
Qed.

(** For lengths below [2^48] the comparison agrees with the exact one
    whenever [7 * n / 10] is not the position itself. *)
Lemma gt_mul_0_7_exact l n :
  0 <= n < 2 ^ 48 →
  (7 * n < 10 * l → gt_mul_0_7 l n = true)
  ∧ (gt_mul_0_7 l n = true → 7 * n <= 10 * l).
Proof.
  intros Hn. unfold gt_mul_0_7.
  pose proof (round53_error (n * seven_tenths)) as He.
  destruct (round53 (n * seven_tenths)) as [m s].
  unfold seven_tenths in *. rewrite Z.ltb_lt.
  change (2 ^ 53) with 9007199254740992 in *.
  change (2 ^ 48) with 281474976710656 in *.
  lia.
Qed.

End DoubleFacts.

(** ** The summary *)

Lemma lastIndexOf_from_rindex i acc s ch :
  lastIndexOf_from i acc s ch =
  match rindex (λ c, c =? ch)%N s with
  | Some j => (i + Z.of_nat j)%Z
  | None => acc
  end.
Proof.
  revert i acc. induction s as [|c r IH]; intros i acc; simpl; [done|].
  rewrite IH. destruct (rindex _ r) as [j|]; [lia|].
  destruct (c =? ch)%N; [lia | done].
Qed.

Lemma lastIndexOf_rindex s ch :
  lastIndexOf s ch = index_or_minus_1 (rindex (λ c, c =? ch)%N s).
Proof.
  unfold lastIndexOf. rewrite lastIndexOf_from_rindex.
  by destruct (rindex _ s).
Qed.

(** The greatest of the three [lastIndexOf] is the position of the
    rightmost terminal mark. *)
Lemma lastSentenceEnd_rightmost s :
  Z.max (Z.max (lastIndexOf s 46) (lastIndexOf s 33)) (lastIndexOf s 63)
  = index_or_minus_1 (rightmost_terminal s).
Proof.
  rewrite !lastIndexOf_rindex. unfold rightmost_terminal.
  induction s as [|c r IH]; [done|]. cbn [rindex].
  destruct (rindex (λ c, c =? 46)%N r), (rindex (λ c, c =? 33)%N r),
    (rindex (λ c, c =? 63)%N r), (rindex is_terminal r);
    unfold is_terminal;
    destruct (c =? 46)%N, (c =? 33)%N, (c =? 63)%N;
    cbn [index_or_minus_1 orb] in IH |- *; lia.
Qed.

Lemma rindex_lt P s i : rindex P s = Some i → (i < length s)%nat.
Proof.
  revert i. induction s as [|c r IH]; intros i; simpl; [done|].
  destruct (rindex P r) as [j|].
  - intros [= <-]. specialize (IH j eq_refl). lia.
  - destruct (P c); [intros [= <-]; lia | done].
Qed.

Lemma rindex_holds P s i :
  rindex P s = Some i →
  (∃ c, s !! i = Some c ∧ P c = true)
  ∧ ∀ j c, (i < j)%nat → s !! j = Some c → P c = false.
Proof.
  revert i. induction s as [|c r IH]; intros i; simpl; [done|].
  destruct (rindex P r) as [k|] eqn:Er.
  - intros [= <-]. destruct (IH k eq_refl) as [Hk Hafter]. split; [done|].
    intros [|j] c' Hj; [lia|]. simpl. apply Hafter. lia.
  - destruct (P c) eqn:Hc; [|done]. intros [= <-]. split; [by exists c|].
    intros [|j] c' Hj; [lia|]. simpl. intros Hl.
    destruct (P c') eqn:Hc'; [|done]. exfalso.
    clear -Er Hl Hc'. revert j Hl. induction r as [|x r IHr]; intros j Hl; [done|].
    simpl in Er. destruct (rindex P r) eqn:E; [done|].
    destruct (P x) eqn:Hx; [done|].
    destruct j as [|j]; simpl in Hl; [congruence | eauto].
Qed.

Lemma generateSummary_short text maxLength :
  (N.of_nat (length text) <= maxLength)%N → generateSummary text maxLength = text.
Proof.
  intros Hl. unfold generateSummary. destruct text as [|c r]; [done|].
  by rewrite (proj2 (N.leb_le _ _) Hl).
Qed.

Lemma generateSummary_long text maxLength :
  (maxLength < N.of_nat (length text))%N →
  match rightmost_terminal (take (N.to_nat maxLength) text) with
  | Some p =>
      if past_threshold p maxLength
      then generateSummary text maxLength = take (S p) text
      else generateSummary text maxLength
           = take (N.to_nat maxLength) text ++ lit "..."
  | None =>
      generateSummary text maxLength
      = take (N.to_nat maxLength) text ++ lit "..."
  end.
Proof.
  intros Hl. unfold generateSummary.
  destruct text as [|c r] eqn:Et; [simpl in Hl; lia|]. rewrite <- Et in *.
  rewrite (proj2 (N.leb_gt _ _) Hl).
  assert (Htr : substring0 text (Z.of_N maxLength) = take (N.to_nat maxLength) text).
  { unfold substring0. f_equal. lia. }
  rewrite !Htr, lastSentenceEnd_rightmost.
  destruct (rightmost_terminal (take (N.to_nat maxLength) text)) as [p|] eqn:Ep;
    cbn [index_or_minus_1].
  - fold (past_threshold p maxLength).
    destruct (past_threshold p maxLength); [|done].
    apply rindex_lt in Ep. rewrite length_take in Ep.
    unfold substring0. replace (Z.to_nat (Z.of_nat p + 1)) with (S p) by lia.
    rewrite take_take. f_equal. lia.
  - by rewrite DoubleFacts.gt_mul_0_7_negative by lia.
Qed.

(** The position [rightmost_terminal] gives holds a terminal mark, and no
    later position does. *)
Lemma rightmost_terminal_spec s p :
  rightmost_terminal s = Some p →
  (∃ c, s !! p = Some c ∧ is_terminal c = true)
  ∧ ∀ j c, (p < j)%nat → s !! j = Some c → is_terminal c = false.
Proof. apply rindex_holds. Qed.

Lemma past_threshold_exact (maxLength : N) (p : nat) :
  (maxLength < 2 ^ 48)%N →
  ((7 * maxLength < 10 * N.of_nat p)%N → past_threshold p maxLength = true)
  ∧ (past_threshold p maxLength = true → (7 * maxLength <= 10 * N.of_nat p)%N).
Proof.
  intros Hn. unfold past_threshold.
  destruct (DoubleFacts.gt_mul_0_7_exact (Z.of_nat p) (Z.of_N maxLength)) as [H1 H2].
  { change (2 ^ 48)%N with 281474976710656%N in Hn.
    change (2 ^ 48)%Z with 281474976710656%Z. lia. }
  split; intros H; [apply H1 | apply H2 in H]; lia.
Qed.

(** C6, amended.  [generateSummary text N] is [text] when its length is at
    most [N].  Otherwise the result has at most [N + 3] characters; it is
    the prefix cut right after the rightmost terminal mark of the first [N]
    characters when that mark's position is greater than the double
    [N * 0.7], and the first [N] characters followed by three dots when it
    is not, or when there is no mark.  For [N < 2^48] the position is
    greater than the double whenever it is greater than [7 * N / 10], and
    only if it is at least [7 * N / 10]. *)
Theorem generateSummary_threshold (text : jsstring) (maxLength : N) :
  ((N.of_nat (length text) <= maxLength)%N → generateSummary text maxLength = text)
  ∧ ((maxLength < N.of_nat (length text))%N →
       (N.of_nat (length (generateSummary text maxLength)) <= maxLength + 3)%N
       ∧ match rightmost_terminal (take (N.to_nat maxLength) text) with
         | Some p =>
             if past_threshold p maxLength
             then generateSummary text maxLength = take (S p) text
             else generateSummary text maxLength
                  = take (N.to_nat maxLength) text ++ lit "..."
         | None =>
             generateSummary text maxLength
             = take (N.to_nat maxLength) text ++ lit "..."
         end)
  ∧ ((maxLength < 2 ^ 48)%N →
       ∀ p : nat,
         ((7 * maxLength < 10 * N.of_nat p)%N → past_threshold p maxLength = true)
         ∧ (past_threshold p maxLength = true →
              (7 * maxLength <= 10 * N.of_nat p)%N)).
Proof.
  split; [apply generateSummary_short|].
  split; [|intros Hn p; by apply past_threshold_exact].
  intros Hl. pose proof (generateSummary_long text maxLength Hl) as Hg.
  split; [|exact Hg].
  destruct (rightmost_terminal (take (N.to_nat maxLength) text)) as [p|] eqn:Ep.
  - apply rindex_lt in Ep. rewrite length_take in Ep.
    destruct (past_threshold p maxLength); rewrite Hg.
    + rewrite length_take. lia.
    + rewrite length_app, length_take. simpl. lia.
  - rewrite Hg, length_app, length_take. simpl. lia.
Qed.

Lemma generateSummary_threshold_witness :
  (90 < N.of_nat (length sentence_at_63))%N
  ∧ generateSummary sentence_at_63 90 = take 64 sentence_at_63.
Proof.
  assert (Hl : (90 < N.of_nat (length sentence_at_63))%N) by (vm_compute; reflexivity).
  split; [exact Hl|].
  exact (proj2 (proj1 (proj2 (generateSummary_threshold sentence_at_63 90)) Hl)).
Defined.

(** C6, as stated, fails: with [N = 90] the full stop at index 63 is not
    past [0.7 * 90 = 63], yet the double [90 * 0.7] is below 63 and the
    summary is cut after the full stop. *)
Lemma summary_exact_threshold_fails : ¬ summary_with_exact_threshold.
Proof.
  intros H. specialize (H sentence_at_63 90%N ltac:(vm_compute; reflexivity)).
  vm_compute in H. discriminate.
Qed.

(** ** The local transcription *)

Lemma settle_settled {A} (p new : Outcome A) : p ≠ Pending → settle p new = p.
Proof. by destruct p. Qed.

Lemma handle_outer_settled s ev : outer s ≠ Pending → outer (handle s ev) = outer s.
Proof.
  intros Hs. destruct ev; simpl; try done.
  - by destruct (timers s).
  - by apply settle_settled.
  - by apply settle_settled.
Qed.

Lemma handle_inner_settled s ev : inner s ≠ Pending → inner (handle s ev) = inner s.
Proof.
  intros Hs. destruct ev; simpl; try done.
  - by apply settle_settled.
  - destruct (timers s); [done|]. by apply settle_settled.
Qed.

Lemma run_session_outer_settled evs s :
  outer s ≠ Pending → outer (run_session evs s) = outer s.
Proof.
  revert s. induction evs as [|ev evs IH]; intros s Hs; [done|]. simpl.
  unfold run_session in IH. rewrite IH; rewrite handle_outer_settled; done.
Qed.

Lemma run_session_inner_settled evs s :
  inner s ≠ Pending → inner (run_session evs s) = inner s.
Proof.
  revert s. induction evs as [|ev evs IH]; intros s Hs; [done|]. simpl.
  unfold run_session in IH. rewrite IH; rewrite handle_inner_settled; done.
Qed.

(** Only the recognizer settles the promise of [transcribeAudio]. *)
Lemma run_session_outer_quiet evs s :
  forallb (λ ev, negb (recognizer_settles ev)) evs = true →
  outer (run_session evs s) = outer s.
Proof.
  revert s. induction evs as [|ev evs IH]; intros s Hq; [done|].
  simpl in Hq. apply andb_true_iff in Hq as [Hev Hq]. simpl.
  unfold run_session in IH. rewrite IH by done.
  destruct ev; try done. simpl. by destruct (timers s).
Qed.

Lemma run_session_app evs1 evs2 s :
  run_session (evs1 ++ evs2) s = run_session evs2 (run_session evs1 s).
Proof. apply fold_left_app. Qed.

Lemma transcribeAudio_supported env file w :
  supported env (queries w) = true →
  (transcribeAudio env file w).1
  = outer (run_session (media_events env) new_session).
Proof. intros Hs. unfold transcribeAudio, bind, record_call, isSupported. simpl. by rewrite Hs. Qed.

(** The recognizer's part of C5: when the first event by which the
    recognizer settles the promise is an error, [transcribeAudio] rejects
    with an [Error] that carries the error code. *)
Lemma transcribeAudio_recognition_error env file w before code after :
  supported env (queries w) = true →
  media_events env = before ++ RecError code :: after →
  forallb (λ ev, negb (recognizer_settles ev)) before = true →
  (transcribeAudio env file w).1
  = Rejected (Error (lit "Speech recognition error: " ++ code)).
Proof.
  intros Hs Hev Hq. rewrite transcribeAudio_supported by done.
  rewrite Hev, run_session_app. simpl.
  change (fold_left handle after ?s) with (run_session after s).
  rewrite run_session_outer_settled; simpl;
    rewrite (run_session_outer_quiet before) by done; done.
Qed.

(** C5, the audio element's part: the code does not do what the claim
    says.  When the audio element reports an error first and the recognizer,
    which has not been started, stays silent, the promise of
    [playAudioForRecognition] is rejected with [Failed to load audio file]
    but the promise of [transcribeAudio] is never settled. *)
Theorem transcribeAudio_audio_error_pending (env : Env) (file : File) (w : World)
    (rest : list MediaEvent) :
  supported env (queries w) = true →
  media_events env = AudioError :: rest →
  forallb (λ ev, negb (recognizer_settles ev)) rest = true →
  (transcribeAudio env file w).1 = Pending
  ∧ inner (run_session (media_events env) new_session)
    = Rejected (Error (lit "Failed to load audio file")).
Proof.
  intros Hs Hev Hq. rewrite transcribeAudio_supported by done. rewrite Hev.
  split.
  - by rewrite (run_session_outer_quiet (AudioError :: rest)).
  - simpl. change (fold_left handle rest ?s) with (run_session rest s).
    by rewrite run_session_inner_settled.
Qed.

Lemma transcribeAudio_audio_error_pending_witness :
  (transcribeAudio broken_audio_env lecture_webm empty_world).1 = Pending
  ∧ inner (run_session (media_events broken_audio_env) new_session)
    = Rejected (Error (lit "Failed to load audio file")).
Proof.
  apply (transcribeAudio_audio_error_pending broken_audio_env lecture_webm
           empty_world []); reflexivity.
Defined.

(** ** The choice between the local and the remote transcription *)

Lemma transcribeAudio_frame env file w :
  let r := transcribeAudio env file w in
  store r.2 = store w ∧ table r.2 = table w
  ∧ calls r.2 = calls w ++ [LocalTranscription]
  ∧ queries r.2 = S (queries w).
Proof.
  unfold transcribeAudio, bind, record_call, isSupported, throw. simpl.
  by destruct (supported env (queries w)).
Qed.

Lemma transcribeWithExternalService_run file w :
  transcribeWithExternalService file w
  = (Resolved (mockTranscript (file_name file)),
     {| store := store w; table := table w;
        calls := calls w ++ [RemoteTranscription]; queries := queries w |}).
Proof. reflexivity. Qed.

Ltac count_calls :=
  simpl; repeat destruct (Call_eq_dec _ _); try done; lia.

(** C4.  [transcribe] calls the remote path when [useExternal] is true or
    the capability is reported unsupported; otherwise it calls the local
    path, and when the local path fails while the capability is still
    reported supported it calls the remote path once, as a fallback; the
    remote path is never called more than once in a call of [transcribe]. *)
Theorem transcribe_routing (env : Env) (audioFile : File) (useExternal : bool)
    (w : World) :
  let r := transcribe env audioFile useExternal w in
  let local := (transcribeAudio env audioFile (queried w)).1 in
  (useExternal = true ∨ supported env (queries w) = false →
     calls r.2 = calls w ++ [RemoteTranscription]
     ∧ r.1 = Resolved (mockTranscript (file_name audioFile)))
  ∧ (useExternal = false ∧ supported env (queries w) = true →
       ∃ rest,
         calls r.2 = calls w ++ LocalTranscription :: rest
         ∧ (∀ e, local = Rejected e → supported env (2 + queries w) = true →
              rest = [RemoteTranscription]
              ∧ r.1 = Resolved (mockTranscript (file_name audioFile)))
         ∧ (∀ e, local = Rejected e → supported env (2 + queries w) = false →
              rest = [] ∧ r.1 = Rejected e)
         ∧ ((∀ e, local ≠ Rejected e) → rest = [] ∧ r.1 = local))
  ∧ ∃ made,
      calls r.2 = calls w ++ made
      ∧ (count_occ Call_eq_dec made RemoteTranscription <= 1)%nat.
Proof.
  unfold transcribe, try_catch, bind, ret, throw.
  destruct useExternal.
  { simpl. split; [done|]. split; [by intros [? _]|].
    exists [RemoteTranscription]. split; [done|]. count_calls. }
  unfold isSupported at 1. simpl.
  destruct (supported env (queries w)) eqn:Hs; simpl.
  2:{ split; [done|]. split; [by intros [_ ?]|].
      exists [RemoteTranscription]. split; [done|]. count_calls. }
  fold (queried w).
  pose proof (transcribeAudio_frame env audioFile (queried w)) as (Hst & Htb & Hc & Hq).
  simpl in Hst, Htb, Hc, Hq.
  destruct (transcribeAudio env audioFile (queried w)) as [local w1] eqn:El.
  simpl in *. split; [by intros [?|?]|].
  destruct local as [text|e|]; simpl.
  - split.
    + intros _. exists []. rewrite Hc. split_and!; done.
    + exists [LocalTranscription]. split; [done|]. count_calls.
  - unfold isSupported. rewrite Hq. simpl.
    destruct (supported env (S (S (queries w)))) eqn:Hs2; simpl.
    + split.
      * intros _. exists [RemoteTranscription]. rewrite Hc, <- app_assoc.
        split_and!; try done. intros Hn. by destruct (Hn e).
      * exists [LocalTranscription; RemoteTranscription].
        rewrite Hc, <- app_assoc. split; [done|]. count_calls.
    + split.
      * intros _. exists []. rewrite Hc. split_and!; done.
      * exists [LocalTranscription]. split; [done|]. count_calls.
  - split.
    + intros _. exists []. rewrite Hc. split_and!; done.
    + exists [LocalTranscription]. split; [done|]. count_calls.
Qed.

Lemma transcribe_routing_witness :
  calls (transcribe no_speech_env lecture_webm false empty_world).2
  = [LocalTranscription; RemoteTranscription]
  ∧ (transcribe no_speech_env lecture_webm false empty_world).1
    = Resolved (mockTranscript (file_name lecture_webm)).
Proof.
  destruct (transcribe_routing no_speech_env lecture_webm false empty_world)
    as (_ & Hlocal & _).
  destruct (Hlocal (conj eq_refl eq_refl)) as (rest & Hc & Hfall & _).
  destruct (Hfall (Error (lit "Speech recognition error: no-speech")) eq_refl eq_refl)
    as [-> Hr].
  split; [exact Hc | exact Hr].
Defined.

Ltac frame_calls made :=
  split_and!; try done; exists made;
  split;
    [ by rewrite <- ?app_assoc
    | repeat (apply List.Forall_cons; [first [by left | by right]|]);
      apply List.Forall_nil ].

(** The worlds [transcribe] leaves: the blob store and the table are
    untouched. *)
Lemma transcribe_frame env file useExternal w :
  let r := transcribe env file useExternal w in
  store r.2 = store w ∧ table r.2 = table w
  ∧ ∃ made, calls r.2 = calls w ++ made
      ∧ Forall (λ c, c = LocalTranscription ∨ c = RemoteTranscription) made.
Proof.
  unfold transcribe, try_catch, bind, ret, throw.
  destruct useExternal.
  { simpl. frame_calls [RemoteTranscription]. }
  unfold isSupported at 1. simpl.
  destruct (supported env (queries w)) eqn:Hs; simpl.
  2:{ frame_calls [RemoteTranscription]. }
  fold (queried w).
  pose proof (transcribeAudio_frame env file (queried w)) as (Hst & Htb & Hc & Hq).
  simpl in Hst, Htb, Hc, Hq.
  destruct (transcribeAudio env file (queried w)) as [local w1].
  simpl in *.
  destruct local as [text|e|]; simpl.
  - frame_calls [LocalTranscription].
  - unfold isSupported. simpl.
    destruct (supported env (queries w1)); simpl.
    + rewrite Hc. frame_calls [LocalTranscription; RemoteTranscription].
    + frame_calls [LocalTranscription].
  - frame_calls [LocalTranscription].
Qed.

(** ** The upload *)

Lemma uploadFile_invalid unicode_upper env file lectureId isPrimary enable w :
  valid (validateFile file) = false →
  uploadFile unicode_upper env file lectureId isPrimary enable w
  = (Resolved (failure (validation_error (validateFile file))), w).
Proof. intros Hv. unfold uploadFile, try_catch. by rewrite Hv. Qed.

Lemma only_calls_refl w : only_calls w w [].
Proof. unfold only_calls. by rewrite app_nil_r. Qed.

Lemma only_calls_trans w1 w2 w3 made1 made2 :
  only_calls w1 w2 made1 → only_calls w2 w3 made2 →
  only_calls w1 w3 (made1 ++ made2).
Proof.
  intros (Hs1 & Ht1 & Hc1) (Hs2 & Ht2 & Hc2). unfold only_calls.
  rewrite Hs2, Ht2, Hc2, Hc1, app_assoc. done.
Qed.

(** The blob write: it fails when the store refuses or the key exists, and
    puts the file under the key otherwise. *)
Lemma storage_upload_run env key file w :
  let logged := {| store := store w; table := table w;
                   calls := calls w ++ [StorageUpload key];
                   queries := queries w |} in
  storage_upload env key file w =
  match upload_fault env with
  | Some (ReturnsError message) => (Resolved (Err message), logged)
  | Some (Throws e) => (Rejected e, logged)
  | None =>
      match store w !! key with
      | Some _ => (Resolved (Err (lit "The resource already exists")), logged)
      | None =>
          (Resolved (Data ()),
           {| store := <[key := file]> (store w); table := table w;
              calls := calls w ++ [StorageUpload key]; queries := queries w |})
      end
  end.
Proof.
  unfold storage_upload, bind, record_call, faulty, ret, throw.
  by destruct (upload_fault env) as [[?|?]|].
Qed.

Lemma probe_duration_run env file fileType w :
  let r := probe_duration env file fileType w in
  (r.1 = Pending ∨ ∃ d, r.1 = Resolved d)
  ∧ ∃ made, only_calls w r.2 made ∧ Forall is_media_call made.
Proof.
  unfold probe_duration, try_catch, bind, getMediaDuration, record_call, ret.
  destruct (_ || _); simpl.
  - split.
    + destruct (probe_events env) as [|[d|] ?]; eauto.
    + exists [ProbeDuration]. split.
      * by destruct (probe_events env) as [|[d|] ?].
      * repeat constructor.
  - split; [eauto|]. exists []. split; [apply only_calls_refl | constructor].
Qed.

Lemma transcribe_if_enabled_run unicode_upper env file fileType enable w :
  let r := transcribe_if_enabled unicode_upper env file fileType enable w in
  (r.1 = Pending
   ∨ r.1 = Resolved {| l_transcript := None; l_status := pending |}
   ∨ r.1 = Resolved {| l_transcript := None; l_status := failed |}
   ∨ ∃ w0 raw,
       (transcribe env file false w0).1 = Resolved raw
       ∧ r.1 = Resolved {| l_transcript := Some (formatTranscript unicode_upper raw);
                           l_status := completed |})
  ∧ ∃ made, only_calls w r.2 made ∧ Forall is_media_call made.
Proof.
  unfold transcribe_if_enabled.
  destruct (_ && _); simpl.
  - unfold try_catch, bind, ret.
    pose proof (transcribe_frame env file false w) as (Hs & Ht & made & Hc & Hm).
    simpl in Hs, Ht, Hc.
    destruct (transcribe env file false w) as [[raw|e|] w1] eqn:Et; simpl in *.
    + split.
      * right; right; right. exists w, raw. by rewrite Et.
      * exists made. split; [done|].
        eapply Forall_impl; [exact Hm|]. intros c [->| ->]; unfold is_media_call; auto.
    + split; [auto|]. exists made. split; [done|].
      eapply Forall_impl; [exact Hm|]. intros c [->| ->]; unfold is_media_call; auto.
    + split; [auto|]. exists made. split; [done|].
      eapply Forall_impl; [exact Hm|]. intros c [->| ->]; unfold is_media_call; auto.
  - split; [auto|]. exists []. split; [apply only_calls_refl | constructor].
Qed.

Lemma save_metadata_run env r w :
  save_metadata env r w =
  match insert_fault env with
  | None =>
      (Resolved {| success := true; filePath := Some (file_path r);
                   error := None; fileId := Some (new_id env) |},
       {| store := store w;
          table := table w ++ [{| row_id := new_id env; row_data := r |}];
          calls := calls w ++ [DbInsert r]; queries := queries w |})
  | Some (Throws e) =>
      (Rejected e,
       {| store := store w; table := table w;
          calls := calls w ++ [DbInsert r]; queries := queries w |})
  | Some (ReturnsError message) =>
      match remove_fault env with
      | None =>
          (Resolved (failure (Some message)),
           {| store := delete (file_path r) (store w); table := table w;
              calls := (calls w ++ [DbInsert r]) ++ [StorageRemove (file_path r)];
              queries := queries w |})
      | Some (ReturnsError _) =>
          (Resolved (failure (Some message)),
           {| store := store w; table := table w;
              calls := (calls w ++ [DbInsert r]) ++ [StorageRemove (file_path r)];
              queries := queries w |})
      | Some (Throws e) =>
          (Rejected e,
           {| store := store w; table := table w;
              calls := (calls w ++ [DbInsert r]) ++ [StorageRemove (file_path r)];
              queries := queries w |})
      end
  end.
Proof.
  unfold save_metadata, db_insert, storage_remove, bind, record_call, faulty,
    ret, throw.
  destruct (insert_fault env) as [[?|?]|]; [|done..].
  cbn. by destruct (remove_fault env) as [[?|?]|].
Qed.

Lemma uploadFile_after_upload unicode_upper env file lectureId isPrimary enable w :
  let key := generateFilePath (now env) lectureId (file_name file) in
  let fileType := getFileType (file_type file) in
  valid (validateFile file) = true →
  upload_fault env = None →
  store w !! key = None →
  uploadFile unicode_upper env file lectureId isPrimary enable w
  = caught
      ((let* duration <- probe_duration env file fileType in
        let* locals <- transcribe_if_enabled unicode_upper env file fileType enable in
        save_metadata env
          {| lecture_id := lectureId;
             lf_file_name := file_name file;
             lf_file_type := if falsy fileType then lit "unknown"
                             else default [] fileType;
             lf_file_size := file_size file;
             file_path := key;
             mime_type := file_type file;
             duration := duration;
             is_primary := isPrimary;
             transcript := l_transcript locals;
             transcript_status := l_status locals |})
         (uploaded_world w key file)).
Proof.
  intros key fileType Hv Hf Hk. unfold uploadFile. rewrite Hv. cbn [negb].
  fold key fileType. unfold try_catch, caught. unfold bind at 1.
  rewrite storage_upload_run, Hf, Hk. fold (uploaded_world w key file).
  by destruct (bind _ _ _) as [[?|?|] ?].
Qed.

(** After a successful blob write, [uploadFile] either waits for ever on
    the probe or the transcription, or hands a row to [save_metadata]; up
    to there it has touched neither the blob nor the table. *)
Lemma uploadFile_stored unicode_upper env file lectureId isPrimary enable w :
  let key := generateFilePath (now env) lectureId (file_name file) in
  valid (validateFile file) = true →
  upload_fault env = None →
  store w !! key = None →
  ∃ mid w2,
    Forall is_media_call mid
    ∧ only_calls (uploaded_world w key file) w2 mid
    ∧ (uploadFile unicode_upper env file lectureId isPrimary enable w = (Pending, w2)
       ∨ ∃ r,
           transcript_fields unicode_upper env file r
           ∧ file_path r = key
           ∧ uploadFile unicode_upper env file lectureId isPrimary enable w
             = caught (save_metadata env r w2)).
Proof.
  intros key Hv Hf Hk.
  pose proof (uploadFile_after_upload unicode_upper env file lectureId
                isPrimary enable w Hv Hf Hk) as Hu.
  cbv zeta in Hu. fold key in Hu.
  set (u := uploadFile unicode_upper env file lectureId isPrimary enable w) in *.
  set (w1 := uploaded_world w key file) in *.
  set (fileType := getFileType (file_type file)) in *.
  unfold bind at 1 in Hu.
  pose proof (probe_duration_run env file fileType w1) as [Hd (made1 & Hc1 & Hm1)].
  destruct (probe_duration env file fileType w1) as [o1 w2]. simpl in Hd, Hc1.
  destruct Hd as [->|[d ->]].
  { exists made1, w2. split_and!; auto. }
  unfold bind at 1 in Hu.
  pose proof (transcribe_if_enabled_run unicode_upper env file fileType enable w2)
    as [Ht (made2 & Hc2 & Hm2)].
  destruct (transcribe_if_enabled unicode_upper env file fileType enable w2)
    as [o2 w3]. simpl in Ht, Hc2.
  pose proof (only_calls_trans _ _ _ _ _ Hc1 Hc2) as Hc.
  assert (Hm : Forall is_media_call (made1 ++ made2)) by by apply Forall_app.
  exists (made1 ++ made2), w3. split; [done|]. split; [done|].
  destruct Ht as [->|Ht]; [by left|]. right.
  destruct Ht as [->|[->|(w0 & raw & Hraw & ->)]]; cbn [l_transcript l_status] in Hu;
    eexists; (split; [|split; [|exact Hu]]);
    unfold transcript_fields; cbn; eauto 10.
Qed.

Lemma uploadFile_upload_failed unicode_upper env file lectureId isPrimary enable w :
  let key := generateFilePath (now env) lectureId (file_name file) in
  let r := uploadFile unicode_upper env file lectureId isPrimary enable w in
  valid (validateFile file) = true →
  is_Some (upload_fault env) ∨ is_Some (store w !! key) →
  (∃ message, r.1 = Resolved (failure (Some message)))
  ∧ store r.2 = store w ∧ table r.2 = table w
  ∧ calls r.2 = calls w ++ [StorageUpload key].
Proof.
  intros key r Hv Hfail. subst r.
  remember (uploadFile unicode_upper env file lectureId isPrimary enable w)
    as u eqn:Hu.
  unfold uploadFile in Hu. rewrite Hv in Hu. cbn [negb] in Hu.
  fold key in Hu. clearbody key.
  unfold try_catch in Hu. unfold bind at 1 in Hu.
  rewrite storage_upload_run in Hu.
  destruct (upload_fault env) as [[message|e]|] eqn:Hf.
  - subst u. cbn [fst snd store table calls ret]. split_and!; eauto.
  - subst u. cbn [fst snd store table calls ret]. split_and!; eauto.
  - destruct Hfail as [[? [=]]|[blob Hb]]. rewrite Hb in Hu.
    subst u. cbn [fst snd store table calls ret]. split_and!; eauto.
Qed.

Lemma media_call_not_insert made r :
  Forall is_media_call made → DbInsert r ∉ made.
Proof.
  intros Hm Hin. rewrite Forall_forall in Hm.
  destruct (Hm _ Hin) as [?|[?|?]]; discriminate.
Qed.

(** What a run of [uploadFile] writes: the calls it makes, the rows it
    adds, and the transcript fields of every row it hands to [insert]. *)
Lemma uploadFile_writes unicode_upper env file lectureId isPrimary enable w :
  let r := uploadFile unicode_upper env file lectureId isPrimary enable w in
  ∃ made rows,
    calls r.2 = calls w ++ made
    ∧ table r.2 = table w ++ rows
    ∧ (∀ lf, DbInsert lf ∈ made → transcript_fields unicode_upper env file lf)
    ∧ (∀ row, row ∈ rows → DbInsert (row_data row) ∈ made).
Proof.
  intros r. subst r.
  destruct (valid (validateFile file)) eqn:Hv.
  2:{ rewrite uploadFile_invalid by done. exists [], []. cbn [fst snd].
      rewrite !app_nil_r. split_and!; try done; intros ? Hin; by apply elem_of_nil in Hin. }
  set (key := generateFilePath (now env) lectureId (file_name file)).
  destruct (upload_fault env) as [f|] eqn:Hf.
  { destruct (uploadFile_upload_failed unicode_upper env file lectureId isPrimary
                enable w Hv) as (_ & _ & Ht & Hc).
    { left. rewrite Hf. eauto. }
    exists [StorageUpload key], []. rewrite Ht, Hc, app_nil_r.
    split_and!; try done.
    - intros lf Hin. apply list_elem_of_singleton in Hin. discriminate.
    - intros ? Hin. by apply elem_of_nil in Hin. }
  destruct (store w !! key) as [blob|] eqn:Hk.
  { destruct (uploadFile_upload_failed unicode_upper env file lectureId isPrimary
                enable w Hv) as (_ & _ & Ht & Hc).
    { right. fold key. rewrite Hk. eauto. }
    exists [StorageUpload key], []. rewrite Ht, Hc, app_nil_r.
    split_and!; try done.
    - intros lf Hin. apply list_elem_of_singleton in Hin. discriminate.
    - intros ? Hin. by apply elem_of_nil in Hin. }
  destruct (uploadFile_stored unicode_upper env file lectureId isPrimary enable w
              Hv Hf Hk) as (mid & w2 & Hm & (Hs2 & Ht2 & Hc2) & Hrun).
  fold key in Hs2, Ht2, Hc2, Hrun. unfold uploaded_world in Hs2, Ht2, Hc2.
  cbn [store table calls] in Hs2, Ht2, Hc2. clearbody key.
  assert (Hno : ∀ lf, DbInsert lf ∈ StorageUpload key :: mid → False).
  { intros lf Hin. apply elem_of_cons in Hin as [?|Hin]; [discriminate|].
    by apply media_call_not_insert in Hin. }
  destruct Hrun as [->|(lf & Hfields & Hpath & ->)].
  { exists (StorageUpload key :: mid), []. cbn [fst snd].
    rewrite Ht2, Hc2, app_nil_r, <- app_assoc.
    split_and!; try done.
    - intros lf Hin. by destruct (Hno lf).
    - intros ? Hin. by apply elem_of_nil in Hin. }
  rewrite save_metadata_run, Hpath.
  assert (Hone : ∀ lf' tail, (∀ c, c ∈ tail → ∀ x, c ≠ DbInsert x) →
            DbInsert lf' ∈ (StorageUpload key :: mid) ++ DbInsert lf :: tail →
            transcript_fields unicode_upper env file lf').
  { intros lf' tail Htail Hin. apply elem_of_app in Hin as [Hin|Hin].
    - by destruct (Hno lf').
    - apply elem_of_cons in Hin as [[= ->]|Hin]; [done|].
      by destruct (Htail _ Hin lf'). }
  destruct (insert_fault env) as [[message|e]|];
    [destruct (remove_fault env) as [[?|?]|]|..];
    cbn [caught fst snd store table calls].
  1-3: exists ((StorageUpload key :: mid) ++ [DbInsert lf; StorageRemove key]), [];
       rewrite Ht2, Hc2, app_nil_r, <- !app_assoc; split_and!; try done;
       [ intros lf'; apply Hone; intros c Hc x; apply list_elem_of_singleton in Hc;
         by subst
       | intros ? Hin; by apply elem_of_nil in Hin ].
  - exists ((StorageUpload key :: mid) ++ [DbInsert lf]), [].
    rewrite Ht2, Hc2, app_nil_r, <- !app_assoc. split_and!; try done.
    + intros lf'. apply Hone. intros c Hc. by apply elem_of_nil in Hc.
    + intros ? Hin. by apply elem_of_nil in Hin.
  - exists ((StorageUpload key :: mid) ++ [DbInsert lf]),
      [{| row_id := new_id env; row_data := lf |}].
    rewrite Ht2, Hc2, <- !app_assoc. split_and!; try done.
    + intros lf'. apply Hone. intros c Hc. by apply elem_of_nil in Hc.
    + intros row Hin. apply list_elem_of_singleton in Hin. subst row.
      cbn [row_data]. apply elem_of_app. right. apply list_elem_of_here.
Qed.

Lemma rows_added_app w w' rows :
  table w' = table w ++ rows → rows_added w w' = rows.
Proof. intros H. unfold rows_added. rewrite H. apply drop_app_length. Qed.

Lemma calls_made_app w w' made :
  calls w' = calls w ++ made → calls_made w w' = made.
Proof. intros H. unfold calls_made. rewrite H. apply drop_app_length. Qed.

(** C8.  An upload that fails validation returns a failure and leaves the
    world as it was: no call is made to the blob store or to the database.
    An upload whose blob write fails returns a failure after that one call:
    no insert is attempted and the table has no new row. *)
Theorem uploadFile_aborts_early (unicode_upper : N -> jsstring) (env : Env)
    (file : File) (lectureId : jsstring) (isPrimary enable : bool) (w : World) :
  let key := generateFilePath (now env) lectureId (file_name file) in
  let r := uploadFile unicode_upper env file lectureId isPrimary enable w in
  (valid (validateFile file) = false →
     (∃ result, r.1 = Resolved result ∧ success result = false)
     ∧ r.2 = w ∧ calls_made w r.2 = [])
  ∧ (valid (validateFile file) = true →
     is_Some (upload_fault env) ∨ is_Some (store w !! key) →
     (∃ result, r.1 = Resolved result ∧ success result = false)
     ∧ calls_made w r.2 = [StorageUpload key]
     ∧ rows_added w r.2 = [] ∧ table r.2 = table w).
Proof.
  intros key r. split.
  - intros Hv. subst r. rewrite uploadFile_invalid by done. cbn [fst snd].
    split_and!; [eauto | done |]. apply calls_made_app. by rewrite app_nil_r.
  - intros Hv Hfail.
    destruct (uploadFile_upload_failed unicode_upper env file lectureId isPrimary
                enable w Hv Hfail) as ([message Hr] & _ & Ht & Hc).
    fold r key in Hr, Ht, Hc. split_and!.
    + rewrite Hr. eauto.
    + by apply calls_made_app.
    + apply rows_added_app. by rewrite app_nil_r.
    + done.
Qed.

Lemma uploadFile_aborts_early_witness :
  (uploadFile (λ _, []) silent_env oversized (lit "lecture-1") false true
     empty_world).2 = empty_world.
Proof.
  apply (proj1 (uploadFile_aborts_early (λ _, []) silent_env oversized
                  (lit "lecture-1") false true empty_world)).
  reflexivity.
Defined.

(** C10.  Every row [uploadFile] hands to [insert], and every row it adds
    to the table, has the status [pending], [completed] or [failed]; the
    status [processing] is never written. *)
Theorem uploadFile_never_writes_processing (unicode_upper : N -> jsstring)
    (env : Env) (file : File) (lectureId : jsstring) (isPrimary enable : bool)
    (w : World) :
  let r := uploadFile unicode_upper env file lectureId isPrimary enable w in
  (∀ lf, DbInsert lf ∈ calls_made w r.2 →
         transcript_status lf ∈ [pending; completed; failed])
  ∧ (∀ row, row ∈ rows_added w r.2 →
            transcript_status (row_data row) ∈ [pending; completed; failed]).
Proof.
  intros r.
  destruct (uploadFile_writes unicode_upper env file lectureId isPrimary enable w)
    as (made & rows & Hc & Ht & Hfields & Hrows).
  fold r in Hc, Ht. rewrite (calls_made_app _ _ _ Hc), (rows_added_app _ _ _ Ht).
  assert (Hst : ∀ lf, DbInsert lf ∈ made →
                      transcript_status lf ∈ [pending; completed; failed]).
  { intros lf Hin.
    destruct (Hfields lf Hin) as [[_ ->]|[[_ ->]|(? & ? & _ & _ & ->)]];
      set_solver. }
  split; [exact Hst|]. intros row Hin. apply Hst. by apply Hrows.
Qed.

Lemma uploadFile_never_writes_processing_witness :
  transcript_status (row_data silent_row) ∈ [pending; completed; failed].
Proof.
  apply (proj2 (uploadFile_never_writes_processing (λ _, []) silent_env
                  lecture_webm (lit "lecture-1") false true empty_world)).
  vm_compute. apply list_elem_of_here.
Defined.

(** ** The scenarios of the specification *)

(** [lecture.webm], 5 MB, transcription enabled, no local capability: the
    remote path is called once and the row is persisted as [completed] with
    the formatted stand-in text. *)
Example scenario_remote_once :
  let r := uploadFile (λ _, []) unsupported_env lecture_webm (lit "lecture-1")
             false true empty_world in
  count_occ Call_eq_dec (calls r.2) RemoteTranscription = 1%nat
  ∧ count_occ Call_eq_dec (calls r.2) LocalTranscription = 0%nat
  ∧ map (λ row, transcript_status (row_data row)) (table r.2) = [completed]
  ∧ map (λ row, transcript (row_data row)) (table r.2)
    = [Some (formatTranscript (λ _, []) (mockTranscript (lit "lecture.webm")))]
  ∧ r.1 = Resolved {| success := true;
                        filePath := Some (lit "lectures/lecture-1/1700000000000_lecture.webm");
                        error := None;
                        fileId := Some (lit "7f9c2e1a") |}.
Proof. vm_compute. done. Qed.

(** [slides.pdf], 2 MB: no transcription whatever the flag, the status
    stays [pending] and the duration unset. *)
Example scenario_slides :
  ∀ enable,
    let r := uploadFile (λ _, []) silent_env slides_pdf (lit "lecture-1")
               false enable empty_world in
    calls r.2
    = [StorageUpload (lit "lectures/lecture-1/1700000000000_slides.pdf");
       DbInsert
         {| lecture_id := lit "lecture-1";
            lf_file_name := lit "slides.pdf";
            lf_file_type := lit "pdf";
            lf_file_size := 2 * 1024 * 1024;
            file_path := lit "lectures/lecture-1/1700000000000_slides.pdf";
            mime_type := lit "application/pdf";
            duration := None;
            is_primary := false;
            transcript := None;
            transcript_status := pending |}].
Proof. intros [|]; vm_compute; done. Qed.

(** The characters of a file name that the storage key keeps. *)
Example generateFilePath_sanitizes :
  generateFilePath 1700000000000 (lit "lecture-1") (lit "week 3 (intro).mp3")
  = lit "lectures/lecture-1/1700000000000_week_3__intro_.mp3".
Proof. reflexivity. Qed.

(** [10 * 0.7] is [7], but [90 * 0.7] is [62.99999999999999]. *)
Example doubles_near_seven_tenths :
  Double.gt_mul_0_7 7 10 = false ∧ Double.gt_mul_0_7 63 90 = true
  ∧ Double.round53 (90 * Double.seven_tenths) = (8866461766385663, 6)%Z.
Proof. by vm_compute. Qed.

(** ** The transcript of a completed row *)

Lemma normalize_spaces_nil_iff s :
  normalize_spaces s = [] ↔ forallb is_space s = true.
Proof.
  induction s as [|c r IH]; [done|]. cbn [forallb].
  destruct (is_space c) eqn:Hc.
  - by rewrite normalize_spaces_skip.
  - rewrite normalize_spaces_cons by done. done.
Qed.

Lemma last_singleton_terminal (c : N) : is_terminal c = true → (c <? 128)%N = true.
Proof.
  unfold is_terminal. intros H. apply N.ltb_lt.
  apply orb_true_iff in H as [H|H]; [apply orb_true_iff in H as [H|H]|];
    apply N.eqb_eq in H; subst; done.
Qed.

(** The formatted text is empty exactly when the raw text holds white
    space only. *)
Lemma formatTranscript_nil_iff unicode_upper raw :
  formatTranscript unicode_upper raw = [] ↔ forallb is_space raw = true.
Proof.
  rewrite formatTranscript_format_spec, <- normalize_spaces_nil_iff.
  unfold format_spec. set (t := normalize_spaces raw).
  destruct t as [|c t']; [done|].
  split; [|done]. intros Hnil. exfalso.
  case_bool_decide as Hd.
  - cbn in Hnil. apply app_eq_nil in Hnil as [_ Hnil].
    by destruct t'.
  - change (drop 1 (c :: t')) with t' in Hnil.
    apply app_eq_nil in Hnil as [Hup ->].
    assert (Ht : ends_with_terminal [c] = true).
    { destruct (ends_with_terminal [c]) eqn:E; [done|]. destruct Hd. by split. }
    cbn in Ht. apply last_singleton_terminal in Ht.
    cbn in Hup. by rewrite Ht in Hup.
Qed.

Lemma not_all_space raw :
  forallb is_space raw ≠ true ↔ ∃ c, c ∈ raw ∧ is_space c = false.
Proof.
  induction raw as [|x r IH]; cbn [forallb].
  - split; [done|]. intros (c & Hin & _). by apply elem_of_nil in Hin.
  - destruct (is_space x) eqn:Hx; cbn [andb].
    + rewrite IH. split; intros (c & Hin & Hc).
      * exists c. split; [by apply list_elem_of_further | done].
      * apply elem_of_cons in Hin as [->|Hin]; [congruence|]. eauto.
    + split; [|done]. intros _. exists x. split; [apply list_elem_of_here | done].
Qed.

(** C1, as stated, fails: in a browser with speech recognition, a recording
    in which the recognizer hears nothing is persisted with the status
    [completed] and the empty string as its transcript. *)
Lemma completed_with_empty_transcript : ¬ completed_has_text.
Proof.
  intros H.
  destruct (H (λ _, []) silent_env lecture_webm (lit "lecture-1") false true
              empty_world
              silent_row)
    as (text & Ht & Hne).
  - vm_compute. apply list_elem_of_here.
  - reflexivity.
  - cbn in Ht. injection Ht as <-. by apply Hne.
Qed.

(** C1, amended.  A row that [uploadFile] adds with the status [completed]
    holds a transcript that is not null: the formatted text of a
    transcription that resolved.  That text is not empty exactly when the
    transcription resolved with a text that has a character other than
    white space. *)
Theorem uploadFile_completed_transcript (unicode_upper : N -> jsstring)
    (env : Env) (file : File) (lectureId : jsstring) (isPrimary enable : bool)
    (w : World) (row : Row) :
  row ∈ rows_added w
          (uploadFile unicode_upper env file lectureId isPrimary enable w).2 →
  transcript_status (row_data row) = completed →
  ∃ w0 raw,
    (transcribe env file false w0).1 = Resolved raw
    ∧ transcript (row_data row) = Some (formatTranscript unicode_upper raw)
    ∧ (formatTranscript unicode_upper raw ≠ [] ↔ ∃ c, c ∈ raw ∧ is_space c = false).
Proof.
  intros Hin Hst.
  destruct (uploadFile_writes unicode_upper env file lectureId isPrimary enable w)
    as (made & rows & Hc & Ht & Hfields & Hrows).
  rewrite (rows_added_app _ _ _ Ht) in Hin.
  destruct (Hfields _ (Hrows _ Hin)) as [[_ E]|[[_ E]|(w0 & raw & Hraw & Htr & _)]];
    [congruence..|].
  exists w0, raw. split_and!; [done..|].
  rewrite formatTranscript_nil_iff. apply not_all_space.
Qed.

Lemma uploadFile_completed_transcript_witness :
  ∃ w0 raw,
    (transcribe silent_env lecture_webm false w0).1 = Resolved raw
    ∧ Some [] = Some (formatTranscript (λ _, []) raw)
    ∧ (formatTranscript (λ _, []) raw ≠ [] ↔ ∃ c, c ∈ raw ∧ is_space c = false).
Proof.
  apply (uploadFile_completed_transcript (λ _, []) silent_env lecture_webm
           (lit "lecture-1") false true empty_world
           silent_row).
  - vm_compute. apply list_elem_of_here.
  - reflexivity.
Defined.

(** ** The compensation of a failed insert *)

(** C3, as stated, fails: when the store refuses the removal, the failure
    is returned and no row exists, but the blob stays under its key. *)
Lemma blob_left_when_removal_fails : ¬ failed_insert_leaves_no_blob.
Proof.
  intros H.
  destruct (H (λ _, []) refusing_env slides_pdf (lit "lecture-1") false false
              empty_world
              (lit "new row violates row-level security policy"))
    as (_ & _ & _ & Hgone); try reflexivity.
  - eexists. vm_compute. apply list_elem_of_further, list_elem_of_here.
  - vm_compute in Hgone. discriminate.
Qed.

(** C3, amended.  When the blob write succeeds and the insert that follows
    reports an error, [uploadFile] calls [remove] on the generated key once,
    right after the insert, and returns a failure; the table has no new row.
    The failure carries the message of the insert unless [remove] throws.
    The blob store does not contain the key afterwards when the removal
    succeeds; when the removal fails the blob stays under its key. *)
Theorem uploadFile_failed_insert_compensates (unicode_upper : N -> jsstring)
    (env : Env) (file : File) (lectureId : jsstring) (isPrimary enable : bool)
    (w : World) (message : jsstring) :
  let key := generateFilePath (now env) lectureId (file_name file) in
  let r := uploadFile unicode_upper env file lectureId isPrimary enable w in
  valid (validateFile file) = true →
  upload_fault env = None →
  store w !! key = None →
  insert_fault env = Some (ReturnsError message) →
  (∃ lf, DbInsert lf ∈ calls_made w r.2) →
  (∃ result, r.1 = Resolved result ∧ success result = false)
  ∧ (∃ before lf,
       calls_made w r.2 = before ++ [DbInsert lf; StorageRemove key]
       ∧ StorageRemove key ∉ before)
  ∧ rows_added w r.2 = []
  ∧ (remove_fault env = None →
       store r.2 !! key = None ∧ r.1 = Resolved (failure (Some message)))
  ∧ (∀ refusal, remove_fault env = Some (ReturnsError refusal) →
       store r.2 !! key = Some file ∧ r.1 = Resolved (failure (Some message)))
  ∧ (∀ e, remove_fault env = Some (Throws e) →
       store r.2 !! key = Some file
       ∧ r.1 = Resolved (failure (Some (caught_message e)))).
Proof.
  intros key r Hv Hf Hk Hins Hreached.
  destruct (uploadFile_stored unicode_upper env file lectureId isPrimary enable w
              Hv Hf Hk) as (mid & w2 & Hm & (Hs2 & Ht2 & Hc2) & Hrun).
  fold key r in Hs2, Ht2, Hc2, Hrun. unfold uploaded_world in Hs2, Ht2, Hc2.
  cbn [store table calls] in Hs2, Ht2, Hc2. clearbody key.
  assert (Hnot : ∀ c, c ∈ StorageUpload key :: mid →
                      (∀ lf, c ≠ DbInsert lf) ∧ c ≠ StorageRemove key).
  { intros c Hin. apply elem_of_cons in Hin as [->|Hin]; [done|].
    rewrite Forall_forall in Hm.
    destruct (Hm _ Hin) as [->|[->| ->]]; done. }
  destruct Hrun as [Hrun|(lf & _ & Hpath & Hrun)].
  { exfalso. destruct Hreached as [lf Hin]. rewrite Hrun in Hin. cbn [snd] in Hin.
    rewrite (calls_made_app w w2 (StorageUpload key :: mid)) in Hin
      by (by rewrite Hc2, <- app_assoc).
    by destruct (proj1 (Hnot _ Hin) lf). }
  rewrite save_metadata_run, Hins, Hpath in Hrun. clear Hreached.
  assert (Hcalls : ∀ w3, calls w3 = (calls w2 ++ [DbInsert lf]) ++ [StorageRemove key] →
            ∃ before lf',
              calls_made w w3 = before ++ [DbInsert lf'; StorageRemove key]
              ∧ StorageRemove key ∉ before).
  { intros w3 Hc3. exists (StorageUpload key :: mid), lf. split.
    - apply calls_made_app. rewrite Hc3, Hc2, <- !app_assoc. done.
    - intros Hin. by destruct (proj2 (Hnot _ Hin)). }
  destruct (remove_fault env) as [[refusal|e]|] eqn:Hrem;
    rewrite Hrun; cbn [caught fst snd store table calls];
    (split; [eauto|]); (split; [by apply Hcalls|]);
    (split; [apply rows_added_app; by rewrite Ht2, app_nil_r|]);
    split_and!; try done.
  - intros ? [= <-]. by rewrite Hs2, lookup_insert_eq.
  - intros ? [= <-]. by rewrite Hs2, lookup_insert_eq.
  - intros _. by rewrite lookup_delete_eq.
Qed.

Lemma uploadFile_failed_insert_compensates_witness :
  store (uploadFile (λ _, []) rejecting_env slides_pdf (lit "lecture-1") false
           false empty_world).2
    !! generateFilePath (now rejecting_env) (lit "lecture-1") (file_name slides_pdf)
  = None.
Proof.
  refine (proj1 (proj1 (proj2 (proj2 (proj2
    (uploadFile_failed_insert_compensates (λ _, []) rejecting_env slides_pdf
       (lit "lecture-1") false false empty_world
       (lit "new row violates row-level security policy")
       eq_refl eq_refl eq_refl eq_refl _)))) eq_refl)).
  eexists. vm_compute. apply list_elem_of_further, list_elem_of_here.
Defined.

(** * Further properties *)

(** ** The shape of a formatted transcript *)

Lemma pieces_space_free s :
  Forall (Forall (λ c, is_space c = false)) (pieces s).
Proof.
  induction s as [|c r IH]; simpl.
  - by repeat constructor.
  - destruct (is_space c) eqn:Hc; [by constructor|].
    destruct (pieces r) as [|p ps].
    + by repeat constructor.
    + apply Forall_cons in IH as [Hp Hps]. constructor; [by constructor | done].
Qed.

Lemma words_are_words s : Forall is_word (words s).
Proof.
  apply Forall_forall. intros w Hw.
  apply list_elem_of_filter in Hw as [Hne Hin]. split; [done|].
  pose proof (pieces_space_free s) as Hall. rewrite Forall_forall in Hall. auto.
Qed.

Lemma pieces_app_word w r :
  Forall (λ c, is_space c = false) w →
  pieces (w ++ r) =
  match pieces r with
  | p :: ps => (w ++ p) :: ps
  | [] => [w]
  end.
Proof.
  induction w as [|c w IH]; intros Hw; simpl.
  - destruct (pieces r) eqn:E; [by apply pieces_not_nil in E | done].
  - apply Forall_cons in Hw as [Hc Hw]. rewrite Hc, (IH Hw).
    by destruct (pieces r).
Qed.

Lemma pieces_unwords ws :
  Forall is_word ws → ws ≠ [] → pieces (unwords ws) = ws.
Proof.
  induction ws as [|w ws IH]; intros Hall Hne; [done|].
  apply Forall_cons in Hall as [[_ Hw] Hall]. rewrite unwords_cons.
  rewrite pieces_app_word by done.
  destruct ws as [|w' ws'].
  - simpl. by rewrite app_nil_r.
  - change (more_words (w' :: ws')) with (32 :: unwords (w' :: ws')).
    change (pieces (32 :: unwords (w' :: ws')))
      with ([] :: pieces (unwords (w' :: ws'))).
    rewrite IH by done. by rewrite app_nil_r.
Qed.

Lemma words_unwords ws : Forall is_word ws → words (unwords ws) = ws.
Proof.
  intros Hall. destruct ws as [|w ws]; [done|].
  unfold words. rewrite pieces_unwords by done.
  induction Hall as [|x l [Hx _] Hl IH]; [done|].
  by rewrite filter_cons_True, IH.
Qed.

(** Normalizing the white space of a normalized text changes nothing. *)
Lemma normalize_spaces_idempotent s :
  normalize_spaces (normalize_spaces s) = normalize_spaces s.
Proof.
  unfold normalize_spaces. by rewrite (words_unwords _ (words_are_words s)).
Qed.

Lemma head_normalize_spaces s :
  head (normalize_spaces s) = head (drop_spaces s).
Proof.
  induction s as [|c r IH]; [done|]. simpl drop_spaces.
  destruct (is_space c) eqn:Hc.
  - by rewrite normalize_spaces_skip.
  - by rewrite normalize_spaces_cons.
Qed.

Lemma head_normalize_spaces_not_space s c :
  head (normalize_spaces s) = Some c → is_space c = false.
Proof.
  rewrite head_normalize_spaces.
  induction s as [|x r IH]; [done|]. simpl.
  destruct (is_space x) eqn:Hx; [done|]. by intros [= <-].
Qed.

Lemma unwords_snoc_char ws c :
  Forall is_word ws → ws ≠ [] → is_space c = false →
  ∃ ws', Forall is_word ws' ∧ ws' ≠ [] ∧ unwords ws ++ [c] = unwords ws'.
Proof.
  intros Hall Hne Hc. induction ws as [|w ws IH]; [done|].
  apply Forall_cons in Hall as [[Hw Hsf] Hall].
  destruct ws as [|w' ws'].
  - exists [w ++ [c]]. split_and!; [|done|by rewrite !unwords_cons, !app_nil_r].
    constructor; [|done]. split; [by destruct w|].
    apply Forall_app. split; [done | by repeat constructor].
  - destruct (IH Hall ltac:(done)) as (ws2 & Hall2 & Hne2 & Heq).
    exists (w :: ws2). split_and!; [by constructor|done|].
    rewrite !unwords_cons.
    change (more_words (w' :: ws')) with (32 :: unwords (w' :: ws')).
    destruct ws2 as [|x l]; [done|].
    change (more_words (x :: l)) with (32 :: unwords (x :: l)).
    by rewrite <- Heq, <- app_assoc.
Qed.

Lemma normalize_spaces_fixed_snoc t c :
  normalize_spaces t = t → t ≠ [] → is_space c = false →
  normalize_spaces (t ++ [c]) = t ++ [c].
Proof.
  intros Ht Hne Hc. rewrite <- Ht. unfold normalize_spaces at 2 3.
  destruct (unwords_snoc_char (words t) c) as (ws' & Hall & _ & ->);
    [apply words_are_words | | done |].
  - intros Hw. unfold normalize_spaces in Ht. rewrite Hw in Ht. by subst t.
  - unfold normalize_spaces. by rewrite words_unwords.
Qed.

Lemma normalize_spaces_fixed_head c u r :
  normalize_spaces (c :: r) = c :: r → is_space c = false → is_space u = false →
  normalize_spaces (u :: r) = u :: r.
Proof.
  intros Ht Hc Hu. rewrite normalize_spaces_cons in Ht by done.
  rewrite normalize_spaces_cons by done. congruence.
Qed.

Lemma ascii_upper_not_space c : is_space c = false → is_space (ascii_upper c) = false.
Proof.
  unfold ascii_upper. intros Hc.
  destruct ((97 <=? c) && (c <=? 122))%N eqn:E; [|done].
  apply andb_true_iff in E as [H1 H2]. apply N.leb_le in H1, H2.
  unfold is_space.
  rewrite !orb_false_iff, !andb_false_iff, !N.eqb_neq, !N.leb_gt. lia.
Qed.

Lemma ascii_upper_idempotent c : ascii_upper (ascii_upper c) = ascii_upper c.
Proof.
  unfold ascii_upper.
  destruct ((97 <=? c) && (c <=? 122))%N eqn:E; [|by rewrite E].
  apply andb_true_iff in E as [H1 H2]. apply N.leb_le in H1, H2.
  destruct (N.leb_spec 97 (c - 32)); [lia | done].
Qed.

Lemma ascii_upper_lt c : (c < 128)%N → (ascii_upper c < 128)%N.
Proof. unfold ascii_upper. destruct (_ && _); lia. Qed.

Lemma ascii_upper_terminal c : is_terminal c = true → ascii_upper c = c.
Proof.
  unfold is_terminal, ascii_upper. intros H.
  apply orb_true_iff in H as [H|H]; [apply orb_true_iff in H as [H|H]|];
    apply N.eqb_eq in H; by subst.
Qed.

Lemma format_spec_punctuated unicode_upper text :
  format_spec unicode_upper text
  = charAt0_toUpperCase unicode_upper (punctuated text) ++ drop 1 (punctuated text).
Proof. reflexivity. Qed.

Lemma punctuated_normalized text :
  normalize_spaces (punctuated text) = punctuated text.
Proof.
  unfold punctuated. case_bool_decide as Hd.
  - destruct Hd as [Hne _]. apply normalize_spaces_fixed_snoc; [|done..].
    apply normalize_spaces_idempotent.
  - apply normalize_spaces_idempotent.
Qed.

Lemma punctuated_terminal text :
  punctuated text ≠ [] → ends_with_terminal (punctuated text) = true.
Proof.
  unfold punctuated. case_bool_decide as Hd; intros Hne.
  - unfold ends_with_terminal. change (lit ".") with [46%N].
    by rewrite last_snoc.
  - destruct (ends_with_terminal (normalize_spaces text)) eqn:E; [done|].
    destruct Hd. by split.
Qed.

Lemma head_punctuated text : head (punctuated text) = head (normalize_spaces text).
Proof.
  unfold punctuated. case_bool_decide as Hd; [|done].
  destruct Hd as [Hne _]. by destruct (normalize_spaces text).
Qed.

Lemma capitalized_terminal unicode_upper p :
  ends_with_terminal p = true →
  ends_with_terminal (charAt0_toUpperCase unicode_upper p ++ drop 1 p) = true.
Proof.
  intros Ht. destruct p as [|c r]; [done|]. change (drop 1 (c :: r)) with r.
  destruct r as [|c' r'].
  - rewrite app_nil_r. cbn in Ht. cbn [charAt0_toUpperCase].
    rewrite (last_singleton_terminal c Ht), (ascii_upper_terminal c Ht). done.
  - unfold ends_with_terminal in *. rewrite last_app.
    rewrite last_cons_cons in Ht. by destruct (last (c' :: r')).
Qed.

(** X1.  A formatted transcript that is not empty ends with a full stop, an
    exclamation mark or a question mark, whatever the case table. *)
Theorem formatTranscript_ends_with_terminal (unicode_upper : N -> jsstring)
    (text : jsstring) :
  formatTranscript unicode_upper text ≠ [] →
  ends_with_terminal (formatTranscript unicode_upper text) = true.
Proof.
  rewrite formatTranscript_format_spec, format_spec_punctuated. intros Hne.
  apply capitalized_terminal, punctuated_terminal.
  intros Hp. apply Hne. by rewrite Hp.
Qed.

Lemma formatTranscript_ends_with_terminal_witness :
  ends_with_terminal (formatTranscript (λ _, []) (lit "  so  far so good ")) = true.
Proof.
  apply (formatTranscript_ends_with_terminal (λ _, []) (lit "  so  far so good ")).
  vm_compute. discriminate.
Defined.

Lemma formatTranscript_ascii unicode_upper text :
  starts_in_ascii text →
  formatTranscript unicode_upper text
  = match punctuated text with
    | [] => []
    | c :: r => ascii_upper c :: r
    end
  ∧ ∀ c r, punctuated text = c :: r → (c < 128)%N ∧ is_space c = false.
Proof.
  intros Hascii. rewrite formatTranscript_format_spec, format_spec_punctuated.
  pose proof (head_punctuated text) as Hh.
  destruct (punctuated text) as [|c r]; [done|]. cbn in Hh.
  assert (Hc : (c < 128)%N).
  { apply Hascii. by rewrite <- head_normalize_spaces. }
  split.
  - cbn. by rewrite (proj2 (N.ltb_lt _ _) Hc).
  - intros ? ? [= <- <-]. split; [done|].
    by apply (head_normalize_spaces_not_space text).
Qed.

Lemma formatTranscript_normalized unicode_upper text :
  starts_in_ascii text →
  normalize_spaces (formatTranscript unicode_upper text)
  = formatTranscript unicode_upper text.
Proof.
  intros Hascii.
  destruct (formatTranscript_ascii unicode_upper text Hascii) as [-> Hc].
  pose proof (punctuated_normalized text) as Hn.
  destruct (punctuated text) as [|c r]; [done|].
  destruct (Hc c r eq_refl) as [_ Hsp].
  apply (normalize_spaces_fixed_head c); [done..|].
  by apply ascii_upper_not_space.
Qed.

(** X2.  In a formatted transcript whose first character is ASCII, white
    space occurs only as single spaces between words: the text is a list of
    non-empty words without white space, joined by one space each. *)
Theorem formatTranscript_single_spaced (unicode_upper : N -> jsstring)
    (text : jsstring) :
  starts_in_ascii text →
  ∃ ws, Forall is_word ws ∧ formatTranscript unicode_upper text = unwords ws.
Proof.
  intros Hascii. exists (words (formatTranscript unicode_upper text)).
  split; [apply words_are_words|].
  symmetry. by apply formatTranscript_normalized.
Qed.

Lemma formatTranscript_single_spaced_witness :
  ∃ ws, Forall is_word ws
        ∧ formatTranscript (λ _, []) (lit "  so  far so good ") = unwords ws.
Proof.
  apply (formatTranscript_single_spaced (λ _, []) (lit "  so  far so good ")).
  intros c. vm_compute. intros [= <-]. reflexivity.
Defined.

(** X3.  Formatting is idempotent on the texts whose first visible
    character is ASCII: a formatted transcript is left as it is. *)
Theorem formatTranscript_idempotent (unicode_upper : N -> jsstring)
    (text : jsstring) :
  starts_in_ascii text →
  formatTranscript unicode_upper (formatTranscript unicode_upper text)
  = formatTranscript unicode_upper text.
Proof.
  intros Hascii.
  pose proof (formatTranscript_normalized unicode_upper text Hascii) as Hn.
  assert (Ht : formatTranscript unicode_upper text ≠ [] →
               ends_with_terminal (formatTranscript unicode_upper text) = true).
  { rewrite formatTranscript_format_spec, format_spec_punctuated. intros Hne.
    apply capitalized_terminal, punctuated_terminal.
    intros Hp. apply Hne. by rewrite Hp. }
  destruct (formatTranscript_ascii unicode_upper text Hascii) as [Heq Hc].
  destruct (punctuated text) as [|c r] eqn:Ep.
  { by rewrite Heq. }
  destruct (Hc c r eq_refl) as [Hlt _]. rewrite Heq in Hn, Ht |- *.
  set (out := ascii_upper c :: r) in *.
  rewrite formatTranscript_format_spec, format_spec_punctuated.
  assert (Hp : punctuated out = out).
  { unfold punctuated. rewrite Hn. rewrite bool_decide_eq_false_2; [done|].
    intros [_ Hf]. rewrite Ht in Hf; done. }
  rewrite Hp. subst out. cbn.
  rewrite (proj2 (N.ltb_lt _ _) (ascii_upper_lt c Hlt)).
  by rewrite ascii_upper_idempotent.
Qed.

Lemma formatTranscript_idempotent_witness :
  formatTranscript (λ _, []) (formatTranscript (λ _, []) (lit "  so  far so good "))
  = formatTranscript (λ _, []) (lit "  so  far so good ").
Proof.
  apply (formatTranscript_idempotent (λ _, []) (lit "  so  far so good ")).
  intros c. vm_compute. intros [= <-]. reflexivity.
Defined.

(** ** Summaries *)

(** X4.  Summarizing is idempotent: the summary of a summary, with the same
    bound, is the summary. *)
Theorem generateSummary_idempotent (text : jsstring) (maxLength : N) :
  generateSummary (generateSummary text maxLength) maxLength
  = generateSummary text maxLength.
Proof.
  destruct (N.le_gt_cases (N.of_nat (length text)) maxLength) as [Hs|Hl].
  { rewrite (generateSummary_short text maxLength Hs).
    by apply generateSummary_short. }
  pose proof (generateSummary_long text maxLength Hl) as Hg.
  set (n := N.to_nat maxLength) in *.
  assert (Hn : length (take n text) = n) by (rewrite length_take; lia).
  destruct (rightmost_terminal (take n text)) as [p|] eqn:Ep.
  - destruct (past_threshold p maxLength) eqn:Hp.
    + rewrite Hg. apply generateSummary_short.
      apply rindex_lt in Ep. rewrite length_take in *. lia.
    + rewrite Hg.
      pose proof (generateSummary_long (take n text ++ lit "...") maxLength) as Hg2.
      fold n in Hg2. rewrite take_app_length', Ep, Hp in Hg2 by done.
      apply Hg2. rewrite length_app, Hn. simpl. lia.
  - rewrite Hg.
    pose proof (generateSummary_long (take n text ++ lit "...") maxLength) as Hg2.
    fold n in Hg2. rewrite take_app_length', Ep in Hg2 by done.
    apply Hg2. rewrite length_app, Hn. simpl. lia.
Qed.

(** ** What the local transcription resolves with *)

Lemma append_finals_fragments results acc :
  append_finals results acc = acc ++ final_fragments results.
Proof.
  revert acc. induction results as [|r rest IH]; intros acc; simpl.
  - by rewrite app_nil_r.
  - rewrite IH. destruct (isFinal r); [by rewrite <- !app_assoc | done].
Qed.

Lemma heard_run_session evs s :
  heard (run_session evs s) = heard s ++ fragments evs.
Proof.
  revert s. induction evs as [|ev evs IH]; intros s; simpl.
  - by rewrite app_nil_r.
  - unfold run_session in IH. rewrite IH.
    destruct ev; simpl; rewrite ?app_nil_r; try done.
    + by destruct (timers s).
    + by rewrite append_finals_fragments, <- app_assoc.
Qed.

(** X5.  When the recognizer ends before it reports any error,
    [transcribeAudio] resolves with the trimmed text of the final results
    delivered until then, each followed by a space; interim results are
    left out, and whatever arrives after the end changes nothing. *)
Theorem transcribeAudio_resolves_with_finals (env : Env) (file : File) (w : World)
    (before after : list MediaEvent) :
  supported env (queries w) = true →
  media_events env = before ++ RecEnd :: after →
  forallb (λ ev, negb (recognizer_settles ev)) before = true →
  (transcribeAudio env file w).1 = Resolved (trim (fragments before)).
Proof.
  intros Hs Hev Hq. rewrite transcribeAudio_supported by done.
  rewrite Hev, run_session_app. simpl.
  change (fold_left handle after ?s) with (run_session after s).
  rewrite run_session_outer_settled; simpl;
    rewrite (run_session_outer_quiet before) by done; [|done].
  by rewrite heard_run_session.
Qed.

Lemma transcribeAudio_resolves_with_finals_witness :
  (transcribeAudio talkative_env lecture_webm empty_world).1
  = Resolved (lit "welcome to the course").
Proof.
  exact (transcribeAudio_resolves_with_finals talkative_env lecture_webm
           empty_world
           [AudioLoadedData;
            RecResult 0 [{| isFinal := true; best := lit " welcome to" |}];
            RecResult 1 [{| isFinal := true; best := lit " welcome to" |};
                         {| isFinal := false; best := lit "the curse" |};
                         {| isFinal := true; best := lit "the course " |}];
            AudioEnded; TimerFired]
           [RecError (lit "aborted")] eq_refl eq_refl eq_refl).
Defined.

Lemma head_drop_spaces s c : head (drop_spaces s) = Some c → is_space c = false.
Proof.
  induction s as [|x r IH]; [done|]. simpl.
  destruct (is_space x) eqn:Hx; [done|]. by intros [= <-].
Qed.

Lemma last_trim_end s c : last (trim_end s) = Some c → is_space c = false.
Proof.
  revert c. induction s as [|x r IH]; intros c; [done|].
  rewrite trim_end_cons. destruct (trim_end r) as [|y t].
  - destruct (is_space x) eqn:Hx; [done|]. by intros [= <-].
  - rewrite last_cons_cons. apply IH.
Qed.

Lemma head_trim_end s c :
  (∀ x, head s = Some x → is_space x = false) →
  head (trim_end s) = Some c → is_space c = false.
Proof.
  intros Hh. destruct s as [|x r]; [done|].
  rewrite trim_end_cons_keep by by apply Hh. intros [= <-]. by apply Hh.
Qed.

Lemma trim_edges s :
  (∀ c, head (trim s) = Some c → is_space c = false)
  ∧ (∀ c, last (trim s) = Some c → is_space c = false).
Proof.
  rewrite trim_trim_end. split; intros c.
  - apply head_trim_end. intros x. apply head_drop_spaces.
  - apply last_trim_end.
Qed.

Lemma run_session_resolved evs s text :
  outer (run_session evs s) = Resolved text →
  outer s = Resolved text ∨ ∃ h, text = trim h.
Proof.
  revert s. induction evs as [|ev evs IH]; intros s; [by left|]. simpl.
  intros Hr. destruct (IH _ Hr) as [Hs|?]; [|by right].
  destruct ev; simpl in Hs; try by left.
  - destruct (timers s); by left.
  - destruct (outer s); simpl in Hs; [by left| done |].
    injection Hs as <-. right. eauto.
  - destruct (outer s); simpl in Hs; by left || done.
Qed.

(** X6.  Whatever the events, a text [transcribeAudio] resolves with has
    no white space at its start or at its end. *)
Theorem transcribeAudio_resolves_trimmed (env : Env) (file : File) (w : World)
    (text : jsstring) :
  (transcribeAudio env file w).1 = Resolved text →
  (∀ c, head text = Some c → is_space c = false)
  ∧ (∀ c, last text = Some c → is_space c = false).
Proof.
  unfold transcribeAudio, bind, record_call, isSupported, throw. simpl.
  destruct (supported env (queries w)); simpl; [|done].
  intros Hr. apply run_session_resolved in Hr as [Hr|[h ->]]; [done|].
  apply trim_edges.
Qed.

Lemma transcribeAudio_resolves_trimmed_witness :
  (∀ c, head (lit "welcome to the course") = Some c → is_space c = false)
  ∧ (∀ c, last (lit "welcome to the course") = Some c → is_space c = false).
Proof.
  apply (transcribeAudio_resolves_trimmed talkative_env lecture_webm empty_world).
  reflexivity.
Defined.

(** [transcribe], with the capability queries it makes counted. *)
Lemma transcribe_cases env file useExternal w :
  transcribe env file useExternal w =
  if useExternal then transcribeWithExternalService file w
  else if negb (supported env (queries w))
  then transcribeWithExternalService file (queried w)
  else match transcribeAudio env file (queried w) with
       | (Rejected e, w1) =>
           if supported env (2 + queries w)
           then transcribeWithExternalService file (queried w1)
           else (Rejected e, queried w1)
       | r => r
       end.
Proof.
  unfold transcribe, try_catch, bind, ret, throw.
  destruct useExternal; [done|].
  unfold isSupported at 1. cbn [fst snd]. fold (queried w).
  destruct (supported env (queries w)); cbn [negb]; [|done].
  pose proof (transcribeAudio_frame env file (queried w)) as (_ & _ & _ & Hq).
  cbn [queried queries] in Hq.
  destruct (transcribeAudio env file (queried w)) as [[text|e|] w1];
    cbn [fst snd] in *; [done| |done].
  unfold isSupported, queried. rewrite !Hq.
  change (2 + queries w)%nat with (S (S (queries w))).
  by destruct (supported env (S (S (queries w)))).
Qed.

Lemma transcribe_stable_not_rejected env file useExternal w e :
  (∀ n, supported env n = supported env 0) →
  (transcribe env file useExternal w).1 ≠ Rejected e.
Proof.
  intros Hst. rewrite transcribe_cases.
  destruct useExternal; [done|].
  destruct (supported env (queries w)) eqn:Hs; cbn [negb]; [|done].
  rewrite (Hst (2 + queries w)%nat), <- (Hst (queries w)), Hs.
  by destruct (transcribeAudio env file (queried w)) as [[?|?|] ?].
Qed.

(** X7.  [transcribe] rejects only when it took the local path, the local
    path was rejected, and the capability, supported when [transcribe]
    began, is reported unsupported in the [catch]; the error is the local
    one. *)
Theorem transcribe_rejects_only_on_capability_loss (env : Env) (file : File)
    (useExternal : bool) (w : World) (e : Exn) :
  (transcribe env file useExternal w).1 = Rejected e →
  useExternal = false
  ∧ supported env (queries w) = true
  ∧ supported env (2 + queries w) = false
  ∧ (transcribeAudio env file (queried w)).1 = Rejected e.
Proof.
  rewrite transcribe_cases.
  destruct useExternal; [done|].
  destruct (supported env (queries w)) eqn:Hs; cbn [negb]; [|done].
  destruct (transcribeAudio env file (queried w)) as [[text|e'|] w1];
    cbn [fst]; [done| |done].
  destruct (supported env (2 + queries w)); cbn [fst]; [done|].
  by intros [= <-].
Qed.

Lemma transcribe_rejects_only_on_capability_loss_witness :
  supported fading_env (2 + queries empty_world) = false
  ∧ (transcribeAudio fading_env lecture_webm (queried empty_world)).1
    = Rejected (Error (lit "Speech recognition error: no-speech")).
Proof.
  refine (proj2 (proj2 (transcribe_rejects_only_on_capability_loss fading_env
                          lecture_webm false empty_world _ eq_refl))).
Defined.

(** ** The steps of an upload *)

Lemma probe_duration_cases env file fileType w :
  probe_duration env file fileType w =
  if bool_decide (fileType = Some (lit "audio"))
     || bool_decide (fileType = Some (lit "video"))
  then (match probe_events env with
        | [] => Pending
        | LoadedMetadata d :: _ => Resolved (Some d)
        | ProbeError :: _ => Resolved None
        end,
        {| store := store w; table := table w;
           calls := calls w ++ [ProbeDuration]; queries := queries w |})
  else (Resolved None, w).
Proof.
  unfold probe_duration, try_catch, bind, getMediaDuration, record_call, ret.
  destruct (_ || _); [|done].
  by destruct (probe_events env) as [|[d|] ?].
Qed.

Lemma transcribe_if_enabled_cases unicode_upper env file fileType enable w :
  transcribe_if_enabled unicode_upper env file fileType enable w =
  if enable && bool_decide (fileType = Some (lit "audio"))
  then match transcribe env file false w with
       | (Resolved text, w') =>
           (Resolved {| l_transcript := Some (formatTranscript unicode_upper text);
                        l_status := completed |}, w')
       | (Rejected e, w') =>
           (Resolved {| l_transcript := None; l_status := failed |}, w')
       | (Pending, w') => (Pending, w')
       end
  else (Resolved {| l_transcript := None; l_status := pending |}, w).
Proof.
  unfold transcribe_if_enabled, try_catch, bind, ret.
  destruct (_ && _); [|done].
  by destruct (transcribe env file false w) as [[?|?|] ?].
Qed.

Lemma world_eta w :
  w = {| store := store w; table := table w; calls := calls w;
         queries := queries w |}.
Proof. by destruct w. Qed.

(** After a successful blob write: the media steps run, and either one of
    them never settles or the row they have prepared is saved. *)
Lemma uploadFile_final unicode_upper env file lectureId isPrimary enable w :
  let key := generateFilePath (now env) lectureId (file_name file) in
  let r := uploadFile unicode_upper env file lectureId isPrimary enable w in
  valid (validateFile file) = true →
  upload_fault env = None →
  store w !! key = None →
  ∃ made q,
    let w3 := {| store := <[key := file]> (store w); table := table w;
                 calls := (calls w ++ [StorageUpload key]) ++ made;
                 queries := q |} in
    Forall is_media_call made
    ∧ media_calls_gated file enable made
    ∧ (r = (Pending, w3)
       ∨ ∃ d locals,
           media_steps unicode_upper env file enable made d locals
           ∧ r = caught (save_metadata env
                           (upload_row lectureId file key isPrimary d locals) w3)).
Proof.
  intros key r Hv Hf Hk.
  pose proof (uploadFile_after_upload unicode_upper env file lectureId isPrimary
                enable w Hv Hf Hk) as Hr.
  cbv zeta in Hr. fold key r in Hr. clearbody r.
  fold (upload_row lectureId file key isPrimary) in Hr.
  set (kind := getFileType (file_type file)) in *.
  unfold bind at 1 in Hr. rewrite probe_duration_cases in Hr.
  set (probed := bool_decide (kind = Some (lit "audio"))
                 || bool_decide (kind = Some (lit "video"))) in *.
  assert (Hprobed : probed = true ↔
            kind = Some (lit "audio") ∨ kind = Some (lit "video")).
  { unfold probed. rewrite orb_true_iff, !bool_decide_eq_true. done. }
  set (made1 := if probed then [ProbeDuration] else []).
  assert (Hm1 : Forall is_media_call made1).
  { unfold made1. destruct probed; repeat constructor. }
  assert (Hin1 : ProbeDuration ∈ made1 ↔ probed = true).
  { unfold made1. destruct probed; [|by rewrite elem_of_nil].
    split; [done|]. intros _. apply list_elem_of_here. }
  set (w1 := {| store := <[key := file]> (store w); table := table w;
                calls := (calls w ++ [StorageUpload key]) ++ made1;
                queries := queries w |}).
  set (od := if probed
             then match probe_events env with
                  | [] => Pending
                  | LoadedMetadata d :: _ => Resolved (Some d)
                  | ProbeError :: _ => Resolved None
                  end
             else Resolved None).
  assert (Hstep1 :
    (if probed
     then (match probe_events env with
           | [] => Pending
           | LoadedMetadata d :: _ => Resolved (Some d)
           | ProbeError :: _ => Resolved None
           end,
           {| store := store (uploaded_world w key file);
              table := table (uploaded_world w key file);
              calls := calls (uploaded_world w key file) ++ [ProbeDuration];
              queries := queries (uploaded_world w key file) |})
     else (Resolved None, uploaded_world w key file)) = (od, w1)).
  { unfold od, w1, made1, uploaded_world. destruct probed; cbn [store table calls queries];
      by rewrite ?app_nil_r. }
  rewrite Hstep1 in Hr. clear Hstep1.
  assert (Hod : od = Pending ∨ ∃ d, od = Resolved d ∧ (d ≠ None → probed = true)).
  { unfold od. destruct probed; [|right; by exists None].
    destruct (probe_events env) as [|[d|] ?]; [by left|right..].
    - by exists (Some d).
    - by exists None. }
  assert (Hquiet : ¬ (LocalTranscription ∈ made1 ∨ RemoteTranscription ∈ made1)).
  { intros [Hin|Hin]; unfold made1 in Hin; destruct probed;
      try (by apply elem_of_nil in Hin);
      apply list_elem_of_singleton in Hin; discriminate. }
  assert (Hgate1 : media_calls_gated file enable made1).
  { split; [by rewrite Hin1 | by intros ?]. }
  destruct Hod as [Hod|(d & Hod & Hd)]; rewrite Hod in Hr.
  { exists made1, (queries w). split; [done|]. split; [done|]. by left. }
  unfold bind at 1 in Hr. rewrite transcribe_if_enabled_cases in Hr.
  destruct (enable && bool_decide (kind = Some (lit "audio"))) eqn:Hen.
  - apply andb_true_iff in Hen as [-> Hk']. apply bool_decide_eq_true in Hk'.
    pose proof (transcribe_frame env file false w1) as (Hs & Ht & made2 & Hc & Hm2).
    cbn [fst snd] in Hs, Ht, Hc.
    assert (Hm2' : Forall is_media_call made2).
    { eapply Forall_impl; [exact Hm2|]. intros c [->| ->]; unfold is_media_call; auto. }
    assert (Hno : ProbeDuration ∉ made2).
    { intros Hin. rewrite Forall_forall in Hm2. by destruct (Hm2 _ Hin). }
    destruct (transcribe env file false w1) as [o w3] eqn:Et.
    cbn [fst snd] in Hs, Ht, Hc.
    assert (Hw3 : w3 = {| store := <[key := file]> (store w); table := table w;
                          calls := (calls w ++ [StorageUpload key]) ++ made1 ++ made2;
                          queries := queries w3 |}).
    { rewrite (world_eta w3) at 1. rewrite Hs, Ht, Hc. subst w1.
      cbn [store table calls]. by rewrite <- !app_assoc. }
    exists (made1 ++ made2), (queries w3). cbv zeta. rewrite <- Hw3.
    split; [by apply Forall_app|].
    assert (Hprobe : ProbeDuration ∈ made1 ++ made2 ↔
              kind = Some (lit "audio") ∨ kind = Some (lit "video")).
    { rewrite elem_of_app, Hin1, Hprobed. tauto. }
    split; [by split|].
    destruct o as [raw|e|]; [right|right|by left].
    + exists d, {| l_transcript := Some (formatTranscript unicode_upper raw);
                   l_status := completed |}.
      split; [|done]. unfold media_steps. fold kind. split_and!; try done.
      * intros Hd'. apply elem_of_app. left. apply Hin1. auto.
      * right. split_and!; [done..|]. right. exists w1, raw. by rewrite Et.
    + exists d, {| l_transcript := None; l_status := failed |}.
      split; [|done]. unfold media_steps. fold kind. split_and!; try done.
      * intros Hd'. apply elem_of_app. left. apply Hin1. auto.
      * right. split_and!; [done..|]. left. split; [|done].
        exists w1, e. by rewrite Et.
  - exists made1, (queries w). split; [done|]. split; [done|]. right.
    exists d, {| l_transcript := None; l_status := pending |}.
    split; [|done]. unfold media_steps. fold kind. split_and!.
    + by rewrite Hin1.
    + intros Hd'. apply Hin1. auto.
    + by intros ?.
    + left. split; [done|]. apply andb_false_iff in Hen as [?|Hb]; [by left|].
      right. by apply bool_decide_eq_false in Hb.
Qed.

Lemma uploadFile_refused unicode_upper env file lectureId isPrimary enable w :
  let key := generateFilePath (now env) lectureId (file_name file) in
  valid (validateFile file) = true →
  is_Some (upload_fault env) ∨ is_Some (store w !! key) →
  ∃ message,
    uploadFile unicode_upper env file lectureId isPrimary enable w
    = (Resolved (failure (Some message)), refused_world w key)
    ∧ (upload_fault env = None → message = lit "The resource already exists").
Proof.
  intros key Hv Hfail.
  remember (uploadFile unicode_upper env file lectureId isPrimary enable w)
    as u eqn:Hu.
  unfold uploadFile in Hu. rewrite Hv in Hu. cbn [negb] in Hu.
  fold key in Hu. clearbody key.
  unfold try_catch in Hu. unfold bind at 1 in Hu.
  rewrite storage_upload_run in Hu. fold (refused_world w key) in Hu.
  destruct (upload_fault env) as [[message|e]|] eqn:Hf.
  - exists message. by subst u.
  - exists (caught_message e). by subst u.
  - destruct Hfail as [[? [=]]|[blob Hb]]. rewrite Hb in Hu.
    exists (lit "The resource already exists"). by subst u.
Qed.

(** Every run of [uploadFile] goes one of the three ways. *)
Lemma uploadFile_upload_run unicode_upper env file lectureId isPrimary enable w :
  upload_run unicode_upper env file lectureId isPrimary enable w
    (uploadFile unicode_upper env file lectureId isPrimary enable w).
Proof.
  unfold upload_run.
  set (key := generateFilePath (now env) lectureId (file_name file)).
  destruct (valid (validateFile file)) eqn:Hv.
  2:{ left. split; [done|]. by apply uploadFile_invalid. }
  right.
  destruct (upload_fault env) as [f|] eqn:Hf.
  { left. split; [done|]. split; [left; eauto|].
    destruct (uploadFile_refused unicode_upper env file lectureId isPrimary
                enable w Hv) as (message & Hr & _); [left; rewrite Hf; eauto|].
    eauto. }
  destruct (store w !! key) as [blob|] eqn:Hk.
  { left. split; [done|]. split; [right; eauto|].
    destruct (uploadFile_refused unicode_upper env file lectureId isPrimary
                enable w Hv) as (message & Hr & _).
    { right. fold key. rewrite Hk. eauto. }
    eauto. }
  right. split_and!; try done.
  apply (uploadFile_final unicode_upper env file lectureId isPrimary enable w
           Hv Hf Hk).
Qed.

Lemma caught_not_rejected r e : (caught r).1 ≠ Rejected e.
Proof. by destruct r as [[?|?|] ?]. Qed.

(** X8.  [uploadFile] never rejects: a call either resolves with a result
    or, when the duration probe or the transcription never settles, never
    returns. *)
Theorem uploadFile_never_rejects (unicode_upper : N -> jsstring) (env : Env)
    (file : File) (lectureId : jsstring) (isPrimary enable : bool) (w : World)
    (e : Exn) :
  (uploadFile unicode_upper env file lectureId isPrimary enable w).1 ≠ Rejected e.
Proof.
  destruct (uploadFile_upload_run unicode_upper env file lectureId isPrimary
              enable w)
    as [[_ ->]|[(_ & _ & message & ->)|(_ & _ & _ & made & q & _ & _ & Hr)]];
    [done..|].
  destruct Hr as [->|(d & locals & _ & ->)]; [done|].
  apply caught_not_rejected.
Qed.

Ltac save_cases :=
  rewrite save_metadata_run;
  destruct (insert_fault _) as [[?|?]|] eqn:?;
    [destruct (remove_fault _) as [[?|?]|] eqn:?|..];
  cbn [caught fst snd store table calls queries stored_world refused_world
       upload_row file_path].

Lemma key_differs (w : World) (key k : jsstring) (blob : File) :
  store w !! key = None → store w !! k = Some blob → key ≠ k.
Proof. intros Hk Hb ->. congruence. Qed.

(** X9.  [uploadFile] never overwrites and never removes a blob that was in
    the store before the call. *)
Theorem uploadFile_keeps_blobs (unicode_upper : N -> jsstring) (env : Env)
    (file : File) (lectureId : jsstring) (isPrimary enable : bool) (w : World)
    (k : jsstring) (blob : File) :
  store w !! k = Some blob →
  store (uploadFile unicode_upper env file lectureId isPrimary enable w).2 !! k
  = Some blob.
Proof.
  intros Hb.
  destruct (uploadFile_upload_run unicode_upper env file lectureId isPrimary
              enable w)
    as [[_ ->]|[(_ & _ & message & ->)|(_ & _ & Hk & made & q & _ & _ & Hr)]];
    [done..|].
  pose proof (key_differs w _ k blob Hk Hb) as Hne.
  destruct Hr as [->|(d & locals & _ & ->)].
  - cbn [snd stored_world store]. by rewrite lookup_insert_ne.
  - save_cases; rewrite ?lookup_delete_ne by done; by rewrite lookup_insert_ne.
Qed.

Lemma uploadFile_keeps_blobs_witness :
  store (uploadFile (λ _, []) rejecting_env slides_pdf (lit "lecture-1") false
           false
           {| store := {[ lit "lectures/lecture-0/1_notes.pdf" := slides_pdf ]};
              table := []; calls := []; queries := 0 |}).2
    !! lit "lectures/lecture-0/1_notes.pdf"
  = Some slides_pdf.
Proof.
  apply (uploadFile_keeps_blobs (λ _, []) rejecting_env slides_pdf
           (lit "lecture-1") false false).
  reflexivity.
Defined.

Lemma valid_file_kind file :
  valid (validateFile file) = true →
  ∃ kind, getFileType (file_type file) = Some kind
          ∧ falsy (getFileType (file_type file)) = false.
Proof.
  intros Hv. apply validateFile_valid in Hv as [_ Hk].
  destruct (getFileType (file_type file)) as [kind|] eqn:E; [|done].
  exists kind. split; [done|].
  destruct (falsy (Some kind)) eqn:Hf; [|done].
  rewrite <- E in Hf. apply falsy_getFileType in Hf. congruence.
Qed.

(** X10.  A result with [success] true means that the blob is in the store
    under the returned path and that exactly one row was added, with the
    returned identifier and the name, size, MIME type, kind, lecture and
    primary flag of the call.  A failure result means that no row was
    added. *)
Theorem uploadFile_success_persists (unicode_upper : N -> jsstring) (env : Env)
    (file : File) (lectureId : jsstring) (isPrimary enable : bool) (w : World)
    (result : FileUploadResult) :
  let key := generateFilePath (now env) lectureId (file_name file) in
  let r := uploadFile unicode_upper env file lectureId isPrimary enable w in
  r.1 = Resolved result →
  (success result = true →
     filePath result = Some key
     ∧ fileId result = Some (new_id env)
     ∧ store r.2 !! key = Some file
     ∧ ∃ lf,
         table r.2 = table w ++ [{| row_id := new_id env; row_data := lf |}]
         ∧ lecture_id lf = lectureId
         ∧ lf_file_name lf = file_name file
         ∧ lf_file_size lf = file_size file
         ∧ file_path lf = key
         ∧ mime_type lf = file_type file
         ∧ is_primary lf = isPrimary
         ∧ getFileType (file_type file) = Some (lf_file_type lf))
  ∧ (success result = false → table r.2 = table w).
Proof.
  intros key r. subst r.
  destruct (uploadFile_upload_run unicode_upper env file lectureId isPrimary
              enable w)
    as [[_ ->]|[(_ & _ & message & ->)|(Hv & _ & Hk & made & q & _ & _ & Hr)]].
  - intros [= <-]. by split.
  - intros [= <-]. by split.
  - fold key in Hk, Hr. destruct Hr as [->|(d & locals & _ & ->)]; [done|].
    destruct (valid_file_kind file Hv) as (kind & Hkind & Hfalsy).
    clearbody key. save_cases; intros [= <-]; (split; [|done]); try done.
    intros _. rewrite lookup_insert_eq. split_and!; try done.
    eexists. split; [reflexivity|].
    unfold upload_row.
    cbn [lecture_id lf_file_name lf_file_size file_path mime_type is_primary
         lf_file_type].
    split_and!; try done. by rewrite Hfalsy, Hkind.
Qed.

Lemma uploadFile_success_persists_witness :
  store (uploadFile (λ _, []) silent_env slides_pdf (lit "lecture-1") true false
           empty_world).2
    !! generateFilePath (now silent_env) (lit "lecture-1") (file_name slides_pdf)
  = Some slides_pdf.
Proof.
  refine (proj1 (proj2 (proj2 (proj1
    (uploadFile_success_persists (λ _, []) silent_env slides_pdf
       (lit "lecture-1") true false empty_world _ eq_refl) eq_refl)))).
Defined.

(** X11.  When [uploadFile] never returns, the blob has been written and
    stays in the store, and no row refers to it. *)
Theorem uploadFile_pending_orphans_blob (unicode_upper : N -> jsstring)
    (env : Env) (file : File) (lectureId : jsstring) (isPrimary enable : bool)
    (w : World) :
  let key := generateFilePath (now env) lectureId (file_name file) in
  let r := uploadFile unicode_upper env file lectureId isPrimary enable w in
  r.1 = Pending →
  store r.2 !! key = Some file
  ∧ table r.2 = table w
  ∧ ∀ lf, DbInsert lf ∉ calls_made w r.2.
Proof.
  intros key r. subst r.
  destruct (uploadFile_upload_run unicode_upper env file lectureId isPrimary
              enable w)
    as [[_ ->]|[(_ & _ & message & ->)|(Hv & _ & Hk & made & q & Hm & _ & Hr)]];
    [done..|].
  fold key in Hk, Hr. clearbody key.
  destruct Hr as [->|(d & locals & _ & ->)].
  - intros _. cbn [snd stored_world store table]. rewrite lookup_insert_eq.
    split_and!; try done. intros lf.
    rewrite (calls_made_app w _ (StorageUpload key :: made))
      by (unfold stored_world; cbn [calls]; by rewrite <- app_assoc).
    intros Hin. apply elem_of_cons in Hin as [?|Hin]; [done|].
    by apply media_call_not_insert in Hin.
  - save_cases; done.
Qed.

Lemma uploadFile_pending_orphans_blob_witness :
  store (uploadFile (λ _, []) broken_audio_env lecture_webm (lit "lecture-1")
           true true empty_world).2
    !! generateFilePath (now broken_audio_env) (lit "lecture-1")
         (file_name lecture_webm)
  = Some lecture_webm.
Proof.
  apply (uploadFile_pending_orphans_blob (λ _, []) broken_audio_env lecture_webm
           (lit "lecture-1") true true empty_world).
  reflexivity.
Defined.

(** The calls of a run that reaches [save_metadata]. *)
Lemma saved_calls env row w key file made q :
  file_path row = key →
  ∃ tail,
    calls_made w (caught (save_metadata env row (stored_world w key file made q))).2
    = StorageUpload key :: made ++ DbInsert row :: tail
    ∧ (tail = [] ∨ tail = [StorageRemove key]).
Proof.
  intros Hp. rewrite save_metadata_run, Hp.
  destruct (insert_fault env) as [[?|?]|];
    [destruct (remove_fault env) as [[?|?]|]|..];
    cbn [caught fst snd];
    (eexists; split;
     [apply calls_made_app; unfold stored_world; cbn [calls];
      rewrite <- !app_assoc; reflexivity | auto]).
Qed.

(** The calls of every run, and the rows handed to [insert]. *)
Lemma uploadFile_calls unicode_upper env file lectureId isPrimary enable w :
  let key := generateFilePath (now env) lectureId (file_name file) in
  let r := uploadFile unicode_upper env file lectureId isPrimary enable w in
  (calls_made w r.2 = [] ∨ calls_made w r.2 = [StorageUpload key])
  ∨ ∃ made,
      Forall is_media_call made
      ∧ media_calls_gated file enable made
      ∧ (calls_made w r.2 = StorageUpload key :: made
         ∨ ∃ d locals tail,
             media_steps unicode_upper env file enable made d locals
             ∧ (tail = [] ∨ tail = [StorageRemove key])
             ∧ calls_made w r.2
               = StorageUpload key :: made
                 ++ DbInsert (upload_row lectureId file key isPrimary d locals)
                 :: tail).
Proof.
  intros key r. subst r.
  destruct (uploadFile_upload_run unicode_upper env file lectureId isPrimary
              enable w)
    as [[_ ->]|[(_ & _ & message & ->)|(_ & _ & _ & made & q & Hm & Hgate & Hr)]].
  - left; left. apply calls_made_app. by rewrite app_nil_r.
  - left; right. by apply calls_made_app.
  - fold key in Hr |- *. clearbody key. right. exists made.
    split; [done|]. split; [done|].
    destruct Hr as [->|(d & locals & Hsteps & ->)].
    + left. apply calls_made_app. unfold stored_world. cbn [snd calls].
      by rewrite <- app_assoc.
    + right. exists d, locals.
      destruct (saved_calls env (upload_row lectureId file key isPrimary d locals)
                  w key file made q eq_refl) as (tail & Hc & Ht).
      exists tail. by split_and!.
Qed.

Lemma calls_shape_elem (c : Call) key made row tail :
  Forall is_media_call made →
  tail = [] ∨ tail = [StorageRemove key] →
  c ∈ StorageUpload key :: made ++ DbInsert row :: tail →
  c = StorageUpload key ∨ (c ∈ made ∧ is_media_call c) ∨ c = DbInsert row
  ∨ c = StorageRemove key.
Proof.
  intros Hm Ht Hin. rewrite Forall_forall in Hm.
  apply elem_of_cons in Hin as [->|Hin]; [auto|].
  apply elem_of_app in Hin as [Hin|Hin]; [auto|].
  apply elem_of_cons in Hin as [->|Hin]; [auto|].
  destruct Ht as [-> | ->]; [by apply elem_of_nil in Hin|].
  apply list_elem_of_singleton in Hin. auto.
Qed.



Ltac absent_from_short :=
  let H := fresh in
  intros H; exfalso;
  first [ by apply elem_of_nil in H
        | apply list_elem_of_singleton in H; discriminate ].

(** A row handed to [insert] is the one the media steps prepared. *)
Lemma inserted_row (lf row : LectureFile) key made tail :
  Forall is_media_call made →
  tail = [] ∨ tail = [StorageRemove key] →
  DbInsert lf ∈ StorageUpload key :: made ++ DbInsert row :: tail →
  lf = row.
Proof.
  intros Hm Ht Hin.
  destruct (calls_shape_elem _ _ _ _ _ Hm Ht Hin) as [?|[[_ Hc]|[Hc|?]]];
    try discriminate.
  - destruct Hc as [?|[?|?]]; discriminate.
  - by injection Hc.
Qed.

Lemma media_call_in_made (c : Call) key made row tail :
  Forall is_media_call made →
  tail = [] ∨ tail = [StorageRemove key] →
  is_media_call c →
  c ∈ StorageUpload key :: made ++ DbInsert row :: tail →
  c ∈ made.
Proof.
  intros Hm Ht Hc Hin.
  destruct (calls_shape_elem _ _ _ _ _ Hm Ht Hin) as [->|[[? _]|[->| ->]]];
    try done; destruct Hc as [?|[?|?]]; discriminate.
Qed.

(** X12.  A transcription is attempted only for an audio file and only when
    the caller enabled it: otherwise neither path is called, and every row
    handed to [insert] has a null transcript and the status [pending]. *)
Theorem uploadFile_transcribes_only_audio (unicode_upper : N -> jsstring)
    (env : Env) (file : File) (lectureId : jsstring) (isPrimary enable : bool)
    (w : World) :
  let r := uploadFile unicode_upper env file lectureId isPrimary enable w in
  enable = false ∨ getFileType (file_type file) ≠ Some (lit "audio") →
  (LocalTranscription ∉ calls_made w r.2)
  ∧ (RemoteTranscription ∉ calls_made w r.2)
  ∧ ∀ lf, DbInsert lf ∈ calls_made w r.2 →
          transcript lf = None ∧ transcript_status lf = pending.
Proof.
  intros r Hoff. subst r.
  assert (Hgate : ¬ (enable = true ∧ getFileType (file_type file) = Some (lit "audio"))).
  { intros [-> Hk]. by destruct Hoff. }
  destruct (uploadFile_calls unicode_upper env file lectureId isPrimary enable w)
    as [[-> | ->]|(made & Hm & [_ Hg] & [->|(d & locals & tail & Hsteps & Ht & ->)])].
  - split_and!; [ | |intros lf]; absent_from_short.
  - split_and!; [ | |intros lf]; absent_from_short.
  - split_and!; [ | |intros lf]; rewrite elem_of_cons;
      (intros [?|Hin]; [discriminate|]).
    + apply Hgate, Hg. by left.
    + apply Hgate, Hg. by right.
    + by apply media_call_not_insert in Hin.
  - split_and!.
    + intros Hin. apply Hgate, Hg. left.
      eapply media_call_in_made; [done..| |exact Hin]. unfold is_media_call. auto.
    + intros Hin. apply Hgate, Hg. right.
      eapply media_call_in_made; [done..| |exact Hin]. unfold is_media_call. auto.
    + intros lf Hin. apply inserted_row in Hin as ->; [|done..].
      destruct Hsteps as (_ & _ & _ & [[-> _]|(He & Hk & _)]); [done|].
      by destruct Hgate.
Qed.

Lemma uploadFile_transcribes_only_audio_witness :
  RemoteTranscription
  ∉ calls_made empty_world
      (uploadFile (λ _, []) unsupported_env slides_pdf (lit "lecture-1") false
         true empty_world).2.
Proof.
  apply (uploadFile_transcribes_only_audio (λ _, []) unsupported_env slides_pdf
           (lit "lecture-1") false true empty_world).
  right. vm_compute. discriminate.
Defined.

(** X13.  The duration is probed exactly for audio and video files: for any
    other file the probe is not called and every row handed to [insert] has
    no duration. *)
Theorem uploadFile_probes_only_media (unicode_upper : N -> jsstring)
    (env : Env) (file : File) (lectureId : jsstring) (isPrimary enable : bool)
    (w : World) :
  let r := uploadFile unicode_upper env file lectureId isPrimary enable w in
  getFileType (file_type file) ≠ Some (lit "audio") →
  getFileType (file_type file) ≠ Some (lit "video") →
  (ProbeDuration ∉ calls_made w r.2)
  ∧ ∀ lf, DbInsert lf ∈ calls_made w r.2 → duration lf = None.
Proof.
  intros r Ha Hv. subst r.
  assert (Hkind : ¬ (getFileType (file_type file) = Some (lit "audio")
                     ∨ getFileType (file_type file) = Some (lit "video"))) by tauto.
  destruct (uploadFile_calls unicode_upper env file lectureId isPrimary enable w)
    as [[-> | ->]|(made & Hm & [Hg _] & [->|(d & locals & tail & Hsteps & Ht & ->)])].
  - split; [|intros lf]; absent_from_short.
  - split; [|intros lf]; absent_from_short.
  - split; [|intros lf]; rewrite elem_of_cons; (intros [?|Hin]; [discriminate|]).
    + by apply Hkind, Hg.
    + by apply media_call_not_insert in Hin.
  - split.
    + intros Hin. apply Hkind, Hg.
      eapply media_call_in_made; [done..| |exact Hin]. unfold is_media_call. auto.
    + intros lf Hin. apply inserted_row in Hin as ->; [|done..].
      cbn [upload_row duration]. destruct d as [d|]; [|done].
      destruct Hsteps as (_ & Hd & _). exfalso. apply Hkind, Hg, Hd. done.
Qed.

Lemma uploadFile_probes_only_media_witness :
  ProbeDuration
  ∉ calls_made empty_world
      (uploadFile (λ _, []) silent_env slides_pdf (lit "lecture-1") false true
         empty_world).2.
Proof.
  apply (uploadFile_probes_only_media (λ _, []) silent_env slides_pdf
           (lit "lecture-1") false true empty_world);
    vm_compute; discriminate.
Defined.

(** X14.  With a capability that does not change during the call, no row
    is ever handed to [insert] with the status [failed]: a rejected local
    transcription is replaced by the remote one. *)
Theorem uploadFile_stable_capability_never_failed (unicode_upper : N -> jsstring)
    (env : Env) (file : File) (lectureId : jsstring) (isPrimary enable : bool)
    (w : World) (lf : LectureFile) :
  (∀ n, supported env n = supported env 0) →
  DbInsert lf
  ∈ calls_made w (uploadFile unicode_upper env file lectureId isPrimary enable w).2 →
  transcript_status lf ≠ failed.
Proof.
  intros Hstable Hin.
  destruct (uploadFile_calls unicode_upper env file lectureId isPrimary enable w)
    as [[Hc | Hc]|(made & Hm & _ & [Hc|(d & locals & tail & Hsteps & Ht & Hc)])];
    rewrite Hc in Hin.
  - by apply elem_of_nil in Hin.
  - by apply list_elem_of_singleton in Hin.
  - apply elem_of_cons in Hin as [?|Hin]; [discriminate|].
    by apply media_call_not_insert in Hin.
  - apply inserted_row in Hin as ->; [|done..]. cbn [upload_row transcript_status].
    destruct Hsteps as (_ & _ & _ & [[-> _]|(_ & _ & [[(w0 & e & Hrej) _]|(? & ? & _ & ->)])]);
      [done| |done].
    by apply transcribe_stable_not_rejected in Hrej.
Qed.

Lemma uploadFile_stable_capability_never_failed_witness :
  transcript_status (row_data silent_row) ≠ failed.
Proof.
  apply (uploadFile_stable_capability_never_failed (λ _, []) silent_env
           lecture_webm (lit "lecture-1") false true empty_world).
  - reflexivity.
  - vm_compute. do 3 apply list_elem_of_further. apply list_elem_of_here.
Defined.

(** X15.  In every row handed to [insert] the transcript is null exactly
    when the status is not [completed]. *)
Theorem uploadFile_transcript_iff_completed (unicode_upper : N -> jsstring)
    (env : Env) (file : File) (lectureId : jsstring) (isPrimary enable : bool)
    (w : World) (lf : LectureFile) :
  DbInsert lf
  ∈ calls_made w (uploadFile unicode_upper env file lectureId isPrimary enable w).2 →
  (transcript lf = None ↔ transcript_status lf ≠ completed).
Proof.
  intros Hin.
  destruct (uploadFile_writes unicode_upper env file lectureId isPrimary enable w)
    as (made & rows & Hc & _ & Hfields & _).
  rewrite (calls_made_app _ _ _ Hc) in Hin.
  destruct (Hfields lf Hin) as [[-> ->]|[[-> ->]|(? & ? & _ & -> & ->)]];
    split; done.
Qed.

Lemma uploadFile_transcript_iff_completed_witness :
  transcript (row_data silent_row) = None
  ↔ transcript_status (row_data silent_row) ≠ completed.
Proof.
  apply (uploadFile_transcript_iff_completed (λ _, []) silent_env
           lecture_webm (lit "lecture-1") false true empty_world).
  vm_compute. do 3 apply list_elem_of_further. apply list_elem_of_here.
Defined.

(** ** Storage keys *)

Lemma lit_inj a b : lit a = lit b → a = b.
Proof.
  unfold lit. intros H.
  assert (Hl : list_ascii_of_string a = list_ascii_of_string b).
  { revert H. generalize (list_ascii_of_string a) (list_ascii_of_string b).
    induction l as [|x l IH]; intros [|y l']; try done.
    cbn [map]. intros [= Hxy Hl].
    f_equal; [|by apply IH].
    by rewrite <- (ascii_N_embedding x), <- (ascii_N_embedding y), Hxy. }
  by rewrite <- (string_of_list_ascii_of_string a),
             <- (string_of_list_ascii_of_string b), Hl.
Qed.

Lemma decimal_inj n m : decimal n = decimal m → n = m.
Proof.
  unfold decimal. intros H. apply lit_inj in H.
  apply DecimalN.Unsigned.to_uint_inj.
  assert (Hnn : ∀ k, N.to_uint k ≠ Decimal.Nil).
  { intros [|p]; [done | apply DecimalPos.Unsigned.to_uint_nonnil]. }
  pose proof (NilZero.usu _ (Hnn n)) as Hn.
  pose proof (NilZero.usu _ (Hnn m)) as Hm.
  rewrite H in Hn. congruence.
Qed.

Lemma string_of_uint_digits d :
  Forall is_digit (lit (NilEmpty.string_of_uint d)).
Proof.
  induction d; cbn [NilEmpty.string_of_uint];
    [constructor | constructor; [unfold is_digit; cbn; lia | exact IHd] ..].
Qed.

Lemma decimal_digits n : Forall is_digit (decimal n).
Proof.
  unfold decimal, NilZero.string_of_uint.
  destruct (N.to_uint n) eqn:E; try (rewrite <- E; apply string_of_uint_digits).
  repeat constructor; unfold is_digit; cbn; lia.
Qed.

Lemma digits_before_underscore (a b x y : jsstring) :
  Forall is_digit a → Forall is_digit b →
  a ++ 95%N :: x = b ++ 95%N :: y → a = b ∧ x = y.
Proof.
  intros Ha. revert b. induction Ha as [|c a Hc Ha IH]; intros b Hb Heq.
  - destruct Hb as [|d b Hd Hb]; cbn in Heq.
    + by injection Heq.
    + injection Heq as <- _. unfold is_digit in Hd. lia.
  - destruct Hb as [|d b Hd Hb]; cbn in Heq.
    + injection Heq as -> _. unfold is_digit in Hc. lia.
    + injection Heq as -> Heq. destruct (IH b Hb Heq) as [-> ->]. done.
Qed.

(** X16.  Two uploads into the same lecture get the same storage key
    exactly when they happen in the same millisecond and their file names
    are equal once sanitized. *)
Theorem generateFilePath_collision (t1 t2 : N) (lectureId name1 name2 : jsstring) :
  generateFilePath t1 lectureId name1 = generateFilePath t2 lectureId name2
  ↔ t1 = t2 ∧ sanitize name1 = sanitize name2.
Proof.
  unfold generateFilePath. split.
  - intros H. do 3 apply app_inv_head in H.
    change (lit "_") with [95%N] in H. cbn [app] in H.
    apply digits_before_underscore in H as [Hd Hs]; [|apply decimal_digits..].
    split; [by apply decimal_inj | done].
  - by intros [-> ->].
Qed.

Lemma kept_in_path_underscore : kept_in_path 95 = false.
Proof. reflexivity. Qed.

(** X17.  The sanitized file name has the length of the name and holds
    only ASCII letters, digits, full stops, hyphens and underscores, so no
    slash and no white space; sanitizing it again changes nothing. *)
Theorem sanitize_path_safe (fileName : jsstring) :
  length (sanitize fileName) = length fileName
  ∧ Forall (λ c, kept_in_path c = true ∨ c = 95%N) (sanitize fileName)
  ∧ (47%N ∉ sanitize fileName)
  ∧ Forall (λ c, is_space c = false) (sanitize fileName)
  ∧ sanitize (sanitize fileName) = sanitize fileName.
Proof.
  assert (Hall : Forall (λ c, kept_in_path c = true ∨ c = 95%N) (sanitize fileName)).
  { unfold sanitize. apply Forall_map. apply Forall_forall. intros c _. cbn.
    destruct (kept_in_path c) eqn:E; auto. }
  split_and!.
  - unfold sanitize. apply length_map.
  - exact Hall.
  - intros Hin. rewrite Forall_forall in Hall.
    destruct (Hall _ Hin) as [H|H]; [vm_compute in H|]; discriminate.
  - eapply Forall_impl; [exact Hall|]. intros c [Hk| ->]; [|reflexivity].
    unfold kept_in_path in Hk. unfold is_space.
    rewrite !orb_true_iff, !andb_true_iff, !N.leb_le, !N.eqb_eq in Hk.
    rewrite !orb_false_iff, !andb_false_iff, !N.eqb_neq, !N.leb_gt. lia.
  - unfold sanitize. rewrite map_map. apply map_ext. intros c.
    destruct (kept_in_path c) eqn:E; [by rewrite E | reflexivity].
Qed.

(** ** Failure paths without compensation, and refused keys *)

(** X18.  When the insert throws instead of returning an error, the outer
    [catch] returns the failure and nothing is cleaned up: no removal is
    called, and the blob stays in the store without a row. *)
Theorem uploadFile_insert_throws_no_cleanup (unicode_upper : N -> jsstring)
    (env : Env) (file : File) (lectureId : jsstring) (isPrimary enable : bool)
    (w : World) (e : Exn) :
  let key := generateFilePath (now env) lectureId (file_name file) in
  let r := uploadFile unicode_upper env file lectureId isPrimary enable w in
  valid (validateFile file) = true →
  upload_fault env = None →
  store w !! key = None →
  insert_fault env = Some (Throws e) →
  r.1 ≠ Pending →
  r.1 = Resolved (failure (Some (caught_message e)))
  ∧ store r.2 !! key = Some file
  ∧ table r.2 = table w
  ∧ (StorageRemove key ∉ calls_made w r.2).
Proof.
  intros key r Hv Hf Hk Hins Hret. subst r.
  destruct (uploadFile_final unicode_upper env file lectureId isPrimary enable w
              Hv Hf Hk) as (made & q & Hm & _ & Hr).
  fold key in Hr. clearbody key.
  destruct Hr as [Hr|(d & locals & _ & Hr)]; rewrite Hr in Hret |- *; [done|].
  clear Hr Hret. rewrite save_metadata_run, Hins.
  cbn [caught fst snd store table calls stored_world].
  rewrite lookup_insert_eq. split_and!; try done.
  rewrite (calls_made_app w _ (StorageUpload key
             :: made ++ [DbInsert (upload_row lectureId file key isPrimary d locals)]))
    by (cbn [calls]; by rewrite <- !app_assoc).
  intros Hin. apply elem_of_cons in Hin as [?|Hin]; [discriminate|].
  apply elem_of_app in Hin as [Hin|Hin].
  - rewrite Forall_forall in Hm. destruct (Hm _ Hin) as [?|[?|?]]; discriminate.
  - apply list_elem_of_singleton in Hin. discriminate.
Qed.

Lemma uploadFile_insert_throws_no_cleanup_witness :
  store (uploadFile (λ _, []) throwing_env slides_pdf (lit "lecture-1") false
           false empty_world).2
    !! generateFilePath (now throwing_env) (lit "lecture-1") (file_name slides_pdf)
  = Some slides_pdf.
Proof.
  refine (proj1 (proj2
    (uploadFile_insert_throws_no_cleanup (λ _, []) throwing_env slides_pdf
       (lit "lecture-1") false false empty_world (Error (lit "Failed to fetch"))
       eq_refl eq_refl eq_refl eq_refl _))).
  vm_compute. discriminate.
Defined.

Lemma uploadFile_success_stored unicode_upper env file lectureId isPrimary enable
    w result :
  let key := generateFilePath (now env) lectureId (file_name file) in
  let r := uploadFile unicode_upper env file lectureId isPrimary enable w in
  r.1 = Resolved result → success result = true →
  store w !! key = None
  ∧ valid (validateFile file) = true
  ∧ fileId result = Some (new_id env)
  ∧ store r.2 = <[key := file]> (store w)
  ∧ ∃ d locals,
      table r.2
      = table w ++ [{| row_id := new_id env;
                       row_data := upload_row lectureId file key isPrimary d locals |}].
Proof.
  intros key r. subst r.
  destruct (uploadFile_upload_run unicode_upper env file lectureId isPrimary
              enable w)
    as [[_ ->]|[(_ & _ & message & ->)|(Hv & _ & Hk & made & q & _ & _ & Hr)]].
  - by intros [= <-].
  - by intros [= <-].
  - fold key in Hk, Hr. clearbody key.
    destruct Hr as [->|(d & locals & _ & ->)]; [done|].
    save_cases; intros [= <-]; try done. intros _. split_and!; try done. eauto.
Qed.

(** X19.  After a successful upload, an upload into the same lecture in the
    same millisecond of a file whose name is the same once sanitized is
    refused with the store's message: the first blob is kept, and nothing
    else changes. *)
Theorem uploadFile_same_key_refused (unicode_upper : N -> jsstring)
    (env1 env2 : Env) (file1 file2 : File) (lectureId : jsstring)
    (isPrimary1 enable1 isPrimary2 enable2 : bool) (w : World)
    (result : FileUploadResult) :
  let key := generateFilePath (now env1) lectureId (file_name file1) in
  let r1 := uploadFile unicode_upper env1 file1 lectureId isPrimary1 enable1 w in
  let r2 := uploadFile unicode_upper env2 file2 lectureId isPrimary2 enable2 r1.2 in
  r1.1 = Resolved result → success result = true →
  now env2 = now env1 →
  sanitize (file_name file2) = sanitize (file_name file1) →
  valid (validateFile file2) = true →
  upload_fault env2 = None →
  r2.1 = Resolved (failure (Some (lit "The resource already exists")))
  ∧ store r2.2 = store r1.2
  ∧ table r2.2 = table r1.2
  ∧ store r2.2 !! key = Some file1.
Proof.
  intros key r1 r2 Hres Hok Hnow Hname Hv Hf.
  destruct (uploadFile_success_stored unicode_upper env1 file1 lectureId
              isPrimary1 enable1 w result Hres Hok) as (_ & _ & _ & Hst & _).
  fold key r1 in Hst.
  assert (Hkey : generateFilePath (now env2) lectureId (file_name file2) = key).
  { unfold key, generateFilePath. by rewrite Hnow, Hname. }
  destruct (uploadFile_refused unicode_upper env2 file2 lectureId isPrimary2
              enable2 r1.2 Hv) as (message & Hr & Hmsg).
  { right. rewrite Hkey, Hst, lookup_insert_eq. eauto. }
  fold r2 in Hr. rewrite Hr, (Hmsg Hf), Hkey.
  cbn [fst snd refused_world store table]. split_and!; try done.
  by rewrite Hst, lookup_insert_eq.
Qed.

Lemma uploadFile_same_key_refused_witness :
  (uploadFile (λ _, []) silent_env my_slides_renamed (lit "lecture-1") false false
     (uploadFile (λ _, []) silent_env my_slides (lit "lecture-1") true false
        empty_world).2).1
  = Resolved (failure (Some (lit "The resource already exists"))).
Proof.
  refine (proj1
    (uploadFile_same_key_refused (λ _, []) silent_env silent_env my_slides
       my_slides_renamed (lit "lecture-1") true false false false empty_world
       _ eq_refl eq_refl eq_refl eq_refl eq_refl eq_refl)).
Defined.

(** ** Deleting a file *)

(** The world after the storage removal of [deleteFile]. *)
Lemma storage_remove_run env key w :
  storage_remove env key w =
  match remove_fault env with
  | Some (ReturnsError message) =>
      (Resolved (Err message),
       {| store := store w; table := table w;
          calls := calls w ++ [StorageRemove key]; queries := queries w |})
  | Some (Throws e) =>
      (Rejected e,
       {| store := store w; table := table w;
          calls := calls w ++ [StorageRemove key]; queries := queries w |})
  | None =>
      (Resolved (Data ()),
       {| store := delete key (store w); table := table w;
          calls := calls w ++ [StorageRemove key]; queries := queries w |})
  end.
Proof.
  unfold storage_remove, bind, record_call, faulty, ret, throw.
  by destruct (remove_fault env) as [[?|?]|].
Qed.

Lemma deleteFile_not_found env db fileId w :
  (∀ row, filter (λ row, row_id row = fileId) (table w) ≠ [row]) →
  deleteFile env db fileId w = (Resolved false, w).
Proof.
  intros Hrows. unfold deleteFile, try_catch, bind, db_select_path, faulty, ret, throw.
  destruct (select_fault db) as [[?|?]|]; [done..|].
  destruct (filter _ (table w)) as [|row [|row' rest]] eqn:E; [done| |done].
  by destruct (Hrows row).
Qed.

Lemma deleteFile_found env db fileId w row :
  select_fault db = None →
  filter (λ row, row_id row = fileId) (table w) = [row] →
  deleteFile env db fileId w =
  match storage_remove env (file_path (row_data row)) w with
  | (Rejected e, w1) => (Resolved false, w1)
  | (Pending, w1) => (Pending, w1)
  | (Resolved _, w1) =>
      match delete_fault db with
      | Some _ => (Resolved false, w1)
      | None =>
          (Resolved true,
           {| store := store w1;
              table := filter (λ row, row_id row ≠ fileId) (table w1);
              calls := calls w1; queries := queries w1 |})
      end
  end.
Proof.
  intros Hsel Hrow.
  unfold deleteFile, try_catch, bind, db_select_path, db_delete, faulty, ret, throw.
  rewrite Hsel, Hrow.
  destruct (storage_remove env (file_path (row_data row)) w) as [[?|?|] w1];
    [|done..].
  by destruct (delete_fault db) as [[?|?]|].
Qed.

(** X20.  [deleteFile] always returns a boolean.  [true] means that every
    row with the identifier has been deleted and no other row touched;
    [false] means that the table is as it was. *)
Theorem deleteFile_result (env : Env) (db : DbEnv) (fileId : jsstring) (w : World) :
  let r := deleteFile env db fileId w in
  (r.1 = Resolved true
   ∧ table r.2 = filter (λ row, row_id row ≠ fileId) (table w)
   ∧ ∀ row, row ∈ table r.2 ↔ row ∈ table w ∧ row_id row ≠ fileId)
  ∨ (r.1 = Resolved false ∧ table r.2 = table w).
Proof.
  intros r. subst r.
  destruct (select_fault db) as [f|] eqn:Hsel.
  { right. unfold deleteFile, try_catch, bind, db_select_path, faulty, ret, throw.
    rewrite Hsel. by destruct f. }
  destruct (filter (λ row, row_id row = fileId) (table w)) as [|row [|row' rest]] eqn:E.
  - right. rewrite deleteFile_not_found; [done|]. intros row. by rewrite E.
  - rewrite (deleteFile_found env db fileId w row Hsel E), storage_remove_run.
    destruct (remove_fault env) as [[?|?]|]; [|by right|];
      (destruct (delete_fault db) as [?|]; [by right|left]);
      cbn [fst snd table]; (split_and!; [done..|]);
      intros x; rewrite list_elem_of_filter; tauto.
  - right. rewrite deleteFile_not_found; [done|]. intros row0. by rewrite E.
Qed.

(** X21.  [deleteFile] with an identifier that no row has (or that several
    rows have) returns [false] and changes nothing: no blob is removed and
    no call is made to the store. *)
Theorem deleteFile_unknown_id (env : Env) (db : DbEnv) (fileId : jsstring)
    (w : World) :
  length (filter (λ row, row_id row = fileId) (table w)) ≠ 1%nat →
  deleteFile env db fileId w = (Resolved false, w).
Proof.
  intros Hlen. apply deleteFile_not_found. intros row E. by rewrite E in Hlen.
Qed.

Lemma deleteFile_unknown_id_witness :
  deleteFile silent_env sound_db (lit "no-such-id") empty_world
  = (Resolved false, empty_world).
Proof.
  apply (deleteFile_unknown_id silent_env sound_db (lit "no-such-id") empty_world).
  vm_compute. discriminate.
Defined.

(** X22.  The two halves of a deletion are not rolled back.  When the store
    refuses the removal and the row is deleted, the result is [true] and
    the blob stays without a row; when the blob is removed and the database
    refuses the deletion, the result is [false] and the row stays without
    its blob. *)
Theorem deleteFile_not_atomic (env : Env) (db : DbEnv) (fileId : jsstring)
    (w : World) (row : Row) :
  let r := deleteFile env db fileId w in
  let path := file_path (row_data row) in
  select_fault db = None →
  filter (λ row, row_id row = fileId) (table w) = [row] →
  (∀ refusal, remove_fault env = Some (ReturnsError refusal) →
     delete_fault db = None →
     r.1 = Resolved true ∧ store r.2 = store w ∧ row ∉ table r.2)
  ∧ (remove_fault env = None → is_Some (delete_fault db) →
     r.1 = Resolved false ∧ store r.2 !! path = None ∧ table r.2 = table w).
Proof.
  intros r path Hsel Hrow. subst r path.
  rewrite (deleteFile_found env db fileId w row Hsel Hrow), storage_remove_run.
  assert (Hid : row_id row = fileId).
  { assert (Hin : row ∈ filter (λ row, row_id row = fileId) (table w))
      by (rewrite Hrow; apply list_elem_of_here).
    by apply list_elem_of_filter in Hin as [? _]. }
  split.
  - intros refusal -> ->. cbn [fst snd store table]. split_and!; try done.
    rewrite list_elem_of_filter. tauto.
  - intros -> [f ->]. cbn [fst snd store table]. split_and!; try done.
    apply lookup_delete_eq.
Qed.

Lemma deleteFile_not_atomic_witness :
  (deleteFile silent_env undeleting_db (row_id silent_row)
     {| store := {[ file_path (row_data silent_row) := lecture_webm ]};
        table := [silent_row]; calls := []; queries := 0 |}).1
  = Resolved false.
Proof.
  refine (proj1 (proj2
    (deleteFile_not_atomic silent_env undeleting_db (row_id silent_row)
       {| store := {[ file_path (row_data silent_row) := lecture_webm ]};
          table := [silent_row]; calls := []; queries := 0 |}
       silent_row eq_refl eq_refl) eq_refl _)).
  vm_compute. eauto.
Defined.

Lemma filter_none {A} (P : A → Prop) `{∀ x, Decision (P x)} (l : list A) :
  (∀ x, x ∈ l → ¬ P x) → filter P l = [].
Proof.
  induction l as [|x l IH]; intros Hall; [done|].
  rewrite filter_cons_False by (apply Hall, list_elem_of_here).
  apply IH. intros y Hy. by apply Hall, list_elem_of_further.
Qed.

Lemma filter_all {A} (P : A → Prop) `{∀ x, Decision (P x)} (l : list A) :
  (∀ x, x ∈ l → P x) → filter P l = l.
Proof.
  induction l as [|x l IH]; intros Hall; [done|].
  rewrite filter_cons_True by (apply Hall, list_elem_of_here).
  f_equal. apply IH. intros y Hy. by apply Hall, list_elem_of_further.
Qed.

(** X23.  Deleting a file that has just been uploaded restores the blob
    store and the table, when the identifier given to the new row was not
    in use and neither the store nor the database fails. *)
Theorem upload_then_delete_restores (unicode_upper : N -> jsstring) (env : Env)
    (db : DbEnv) (file : File) (lectureId : jsstring) (isPrimary enable : bool)
    (w : World) (result : FileUploadResult) :
  let r1 := uploadFile unicode_upper env file lectureId isPrimary enable w in
  let r2 := deleteFile env db (new_id env) r1.2 in
  r1.1 = Resolved result → success result = true →
  (∀ row, row ∈ table w → row_id row ≠ new_id env) →
  remove_fault env = None → select_fault db = None → delete_fault db = None →
  fileId result = Some (new_id env)
  ∧ r2.1 = Resolved true
  ∧ store r2.2 = store w
  ∧ table r2.2 = table w.
Proof.
  intros r1 r2 Hres Hok Hfresh Hrem Hsel Hdel.
  destruct (uploadFile_success_stored unicode_upper env file lectureId isPrimary
              enable w result Hres Hok)
    as (Hk & _ & Hid & Hst & d & locals & Htb).
  fold r1 in Hst, Htb.
  set (key := generateFilePath (now env) lectureId (file_name file)) in *.
  set (row := {| row_id := new_id env;
                 row_data := upload_row lectureId file key isPrimary d locals |}) in *.
  assert (Hrow : filter (λ row, row_id row = new_id env) (table r1.2) = [row]).
  { rewrite Htb, filter_app, filter_none by done.
    by rewrite filter_cons_True. }
  subst r2. rewrite (deleteFile_found env db _ _ row Hsel Hrow), storage_remove_run.
  rewrite Hrem, Hdel. cbn [fst snd store table]. clearbody key.
  split_and!; try done.
  - cbn [row row_data upload_row file_path]. rewrite Hst. by apply delete_insert_id.
  - rewrite Htb, filter_app, filter_all by done.
    rewrite filter_cons_False; [|by intros H; apply H].
    by rewrite app_nil_r.
Qed.

Lemma upload_then_delete_restores_witness :
  store (deleteFile silent_env sound_db (new_id silent_env)
           (uploadFile (λ _, []) silent_env slides_pdf (lit "lecture-1") true
              false empty_world).2).2
  = store empty_world.
Proof.
  refine (proj1 (proj2 (proj2
    (upload_then_delete_restores (λ _, []) silent_env sound_db slides_pdf
       (lit "lecture-1") true false empty_world _ eq_refl eq_refl _ eq_refl
       eq_refl eq_refl)))).
  intros row Hin. by apply elem_of_nil in Hin.
Defined.

(** ** Listing the files of a lecture *)

Lemma getLectureFiles_run db publicUrl lectureId w :
  getLectureFiles db publicUrl lectureId w =
  match list_fault db with
  | Some _ => (Resolved [], w)
  | None =>
      let rows := filter (λ row, lecture_id (row_data row) = lectureId) (table w) in
      (Resolved (map (λ file, (file, publicUrl (file_path (row_data file))))
                   (filter (λ row, is_primary (row_data row) = true) rows
                    ++ filter (λ row, is_primary (row_data row) ≠ true) rows)),
       w)
  end.
Proof.
  unfold getLectureFiles, try_catch, bind, db_select_lecture, faulty, ret, throw.
  by destruct (list_fault db) as [[?|?]|].
Qed.

(** X24.  [getLectureFiles] leaves the world as it is and always resolves:
    with the empty list when the query fails, and otherwise with exactly
    the rows of the lecture, each with the public URL of its path, the
    primary files before the others. *)
Theorem getLectureFiles_lists (db : DbEnv) (publicUrl : jsstring -> jsstring)
    (lectureId : jsstring) (w : World) :
  let r := getLectureFiles db publicUrl lectureId w in
  r.2 = w
  ∧ ∃ files,
      r.1 = Resolved files
      ∧ (is_Some (list_fault db) → files = [])
      ∧ (list_fault db = None →
           (∀ row url,
              (row, url) ∈ files ↔
              row ∈ table w ∧ lecture_id (row_data row) = lectureId
              ∧ url = publicUrl (file_path (row_data row)))
           ∧ length files
             = length (filter (λ row, lecture_id (row_data row) = lectureId)
                         (table w))
           ∧ ∀ i j a b,
               (i < j)%nat → files !! i = Some a → files !! j = Some b →
               is_primary (row_data b.1) = true →
               is_primary (row_data a.1) = true).
Proof.
  intros r. subst r. rewrite getLectureFiles_run.
  destruct (list_fault db) as [f|] eqn:Hf.
  { split; [done|]. exists []. split_and!; done. }
  cbv zeta. cbn [fst snd]. split; [done|]. eexists. split; [reflexivity|].
  split; [by intros [? [=]]|]. intros _.
  set (rows := filter (λ row, lecture_id (row_data row) = lectureId) (table w)).
  set (P := filter (λ row, is_primary (row_data row) = true) rows).
  set (NP := filter (λ row, is_primary (row_data row) ≠ true) rows).
  set (f := λ file : Row, (file, publicUrl (file_path (row_data file)))).
  change (map f (P ++ NP)) with (f <$> (P ++ NP)).
  split_and!.
  - intros row url. rewrite list_elem_of_fmap. split.
    + intros (x & [= -> ->] & Hin).
      assert (Hx : x ∈ rows).
      { apply elem_of_app in Hin as [Hin|Hin];
          by apply list_elem_of_filter in Hin as [_ ?]. }
      apply list_elem_of_filter in Hx as [? ?]. done.
    + intros (Hin & Hl & ->). exists row. split; [done|].
      assert (Hx : row ∈ rows) by by apply list_elem_of_filter.
      apply elem_of_app.
      destruct (decide (is_primary (row_data row) = true));
        [left | right]; by apply list_elem_of_filter.
  - rewrite length_fmap, length_app.
    pose proof (filter_app_complement (λ row, is_primary (row_data row) = true) rows)
      as Hperm.
    apply Permutation_length in Hperm. by rewrite length_app in Hperm.
  - intros i j a b Hij Ha Hb Hprim.
    rewrite list_lookup_fmap in Ha, Hb.
    destruct ((P ++ NP) !! i) as [x|] eqn:Hx; [|done].
    destruct ((P ++ NP) !! j) as [y|] eqn:Hy; [|done].
    injection Ha as <-. injection Hb as <-. cbn [fst] in *.
    destruct (decide (j < length P)%nat) as [Hj|Hj].
    + rewrite lookup_app_l in Hx by lia.
      assert (Hin : x ∈ P) by (apply list_elem_of_lookup; eauto).
      by apply list_elem_of_filter in Hin as [? _].
    + rewrite lookup_app_r in Hy by lia.
      assert (Hin : y ∈ NP) by (apply list_elem_of_lookup; eauto).
      by apply list_elem_of_filter in Hin as [? _].
Qed.

(** X25.  Round trip: after a successful upload into a lecture that had no
    file, [getLectureFiles] returns exactly one record, whose identifier is
    the returned one and whose name, size, MIME type and path are those of
    the upload, with the public URL of the path. *)
Theorem upload_then_list (unicode_upper : N -> jsstring) (env : Env) (db : DbEnv)
    (publicUrl : jsstring -> jsstring) (file : File) (lectureId : jsstring)
    (isPrimary enable : bool) (w : World) (result : FileUploadResult) :
  let key := generateFilePath (now env) lectureId (file_name file) in
  let r1 := uploadFile unicode_upper env file lectureId isPrimary enable w in
  r1.1 = Resolved result → success result = true →
  filter (λ row, lecture_id (row_data row) = lectureId) (table w) = [] →
  list_fault db = None →
  ∃ row,
    (getLectureFiles db publicUrl lectureId r1.2).1
    = Resolved [(row, publicUrl key)]
    ∧ fileId result = Some (row_id row)
    ∧ lf_file_name (row_data row) = file_name file
    ∧ lf_file_size (row_data row) = file_size file
    ∧ mime_type (row_data row) = file_type file
    ∧ file_path (row_data row) = key
    ∧ is_primary (row_data row) = isPrimary.
Proof.
  intros key r1 Hres Hok Hnone Hlist.
  destruct (uploadFile_success_stored unicode_upper env file lectureId isPrimary
              enable w result Hres Hok)
    as (_ & _ & Hid & _ & d & locals & Htb).
  fold r1 key in Htb. clearbody key.
  set (row := {| row_id := new_id env;
                 row_data := upload_row lectureId file key isPrimary d locals |}) in *.
  exists row. split; [|by split_and!].
  rewrite getLectureFiles_run, Hlist. cbv zeta. cbn [fst].
  rewrite Htb, filter_app, Hnone. cbn [app].
  rewrite (filter_cons_True _ row []) by done. change (filter _ []) with (@nil Row).
  destruct isPrimary.
  - rewrite filter_cons_True by done. rewrite filter_cons_False; [done|].
    by intros H; apply H.
  - rewrite filter_cons_False by done. by rewrite filter_cons_True.
Qed.

Lemma upload_then_list_witness :
  ∃ row,
    (getLectureFiles sound_db (λ path, lit "https://files.example/" ++ path)
       (lit "lecture-1")
       (uploadFile (λ _, []) silent_env slides_pdf (lit "lecture-1") true false
          empty_world).2).1
    = Resolved
        [(row,
          lit "https://files.example/lectures/lecture-1/1700000000000_slides.pdf")]
    ∧ lf_file_size (row_data row) = file_size slides_pdf.
Proof.
  destruct (upload_then_list (λ _, []) silent_env sound_db
              (λ path, lit "https://files.example/" ++ path) slides_pdf
              (lit "lecture-1") true false empty_world _ eq_refl eq_refl
              eq_refl eq_refl) as (row & Hr & _ & _ & Hsize & _).
  exists row. split; [exact Hr | exact Hsize].
Defined.

(** ** The preview and the upload *)

Lemma transcribeAudio_outcome env file w w' :
  queries w = queries w' →
  (transcribeAudio env file w).1 = (transcribeAudio env file w').1.
Proof.
  intros Hq. unfold transcribeAudio, bind, record_call, isSupported, throw.
  cbn [fst snd queries]. rewrite Hq. by destruct (supported env (queries w')).
Qed.

(** With a capability that does not change, the outcome of [transcribe]
    does not depend on the world. *)
Lemma transcribe_stable_outcome env file useExternal w w' :
  (∀ n, supported env n = supported env 0) →
  (transcribe env file useExternal w).1 = (transcribe env file useExternal w').1.
Proof.
  intros Hst. rewrite !transcribe_cases.
  destruct useExternal; [done|].
  rewrite (Hst (queries w)), (Hst (queries w')), (Hst (2 + queries w)%nat),
    (Hst (2 + queries w')%nat).
  destruct (supported env 0) eqn:Hs; cbn [negb]; [|done].
  assert (Hloc : ∀ v, (transcribeAudio env file (queried v)).1
                      = outer (run_session (media_events env) new_session)).
  { intros v. apply transcribeAudio_supported. cbn [queried queries].
    by rewrite Hst. }
  pose proof (Hloc w) as H1. pose proof (Hloc w') as H2.
  destruct (transcribeAudio env file (queried w)) as [o1 w1].
  destruct (transcribeAudio env file (queried w')) as [o2 w2].
  cbn [fst] in H1, H2. subst o1 o2.
  by destruct (outer (run_session (media_events env) new_session)).
Qed.

Lemma preview_resolved unicode_upper env file w text :
  (FileUploadService.transcribeAudio unicode_upper env file w).1 = Resolved text →
  ∃ raw, (transcribe env file false w).1 = Resolved raw
         ∧ text = formatTranscript unicode_upper raw.
Proof.
  unfold FileUploadService.transcribeAudio, try_catch, bind, ret, throw.
  destruct (transcribe env file false w) as [[raw|e|] w1]; cbn [fst]; [|done..].
  intros [= <-]. eauto.
Qed.

(** X26.  The preview and the upload agree: with a capability that does
    not change, when [FileUploadService.transcribeAudio] resolves with a
    text for an audio file, every row that [uploadFile], with transcription
    enabled, hands to [insert] for that file holds this text, with the
    status [completed]. *)
Theorem preview_matches_persisted (unicode_upper : N -> jsstring) (env : Env)
    (file : File) (lectureId : jsstring) (isPrimary : bool) (w w' : World)
    (text : jsstring) (lf : LectureFile) :
  (∀ n, supported env n = supported env 0) →
  getFileType (file_type file) = Some (lit "audio") →
  (FileUploadService.transcribeAudio unicode_upper env file w').1 = Resolved text →
  DbInsert lf
  ∈ calls_made w (uploadFile unicode_upper env file lectureId isPrimary true w).2 →
  transcript lf = Some text ∧ transcript_status lf = completed.
Proof.
  intros Hst Hkind Hprev Hin.
  apply preview_resolved in Hprev as (raw' & Hraw' & ->).
  destruct (uploadFile_calls unicode_upper env file lectureId isPrimary true w)
    as [[Hc | Hc]|(made & Hm & _ & [Hc|(d & locals & tail & Hsteps & Ht & Hc)])];
    rewrite Hc in Hin.
  - by apply elem_of_nil in Hin.
  - by apply list_elem_of_singleton in Hin.
  - apply elem_of_cons in Hin as [?|Hin]; [discriminate|].
    by apply media_call_not_insert in Hin.
  - apply inserted_row in Hin as ->; [|done..].
    cbn [upload_row transcript transcript_status].
    destruct Hsteps as (_ & _ & _ & [[_ [?|?]]|(_ & _ & [[(w0 & e & Hrej) _]|(w0 & raw & Hraw & ->)])]);
      [done..| |].
    + by apply transcribe_stable_not_rejected in Hrej.
    + rewrite (transcribe_stable_outcome env file false w0 w' Hst), Hraw' in Hraw.
      by injection Hraw as ->.
Qed.

Lemma preview_matches_persisted_witness :
  transcript (row_data silent_row) = Some [] ∧
  transcript_status (row_data silent_row) = completed.
Proof.
  apply (preview_matches_persisted (λ _, []) silent_env lecture_webm
           (lit "lecture-1") false empty_world empty_world).
  - reflexivity.
  - reflexivity.
  - reflexivity.
  - vm_compute. do 3 apply list_elem_of_further. apply list_elem_of_here.
Defined.

(** X27.  The component and the service agree on what an audio file is:
    for a file that [validateFile] accepts, [file.type.startsWith('audio/')]
    holds exactly when [getFileType] gives the kind [audio]. *)
Theorem audio_prefix_iff_audio_kind (file : File) :
  valid (validateFile file) = true →
  (startsWith (file_type file) (lit "audio/") = true
   ↔ getFileType (file_type file) = Some (lit "audio")).
Proof.
  intros Hv. apply validateFile_valid in Hv as [_ Hk].
  assert (Hin : file_type file ∈ allowed_mime_types).
  { destruct (decide (file_type file ∈ allowed_mime_types)) as [|Hn]; [done|].
    by apply find_type_None in Hn. }
  clear Hk. unfold allowed_mime_types in Hin. cbn [ALLOWED_TYPES map snd concat app] in Hin.
  repeat (apply elem_of_cons in Hin as [->|Hin]);
    try (by apply elem_of_nil in Hin);
    vm_compute; split; done.
Qed.

Lemma audio_prefix_iff_audio_kind_witness :
  startsWith (file_type lecture_webm) (lit "audio/") = true
  ↔ getFileType (file_type lecture_webm) = Some (lit "audio").
Proof. apply (audio_prefix_iff_audio_kind lecture_webm). reflexivity. Defined.

(** ** Choosing the primary file *)

Lemma setPrimaryFile_run clear_fault set_fault lectureId fileId w :
  setPrimaryFile clear_fault set_fault lectureId fileId w =
  let cleared :=
    match clear_fault with
    | None =>
        {| store := store w;
           table := map (λ row, if bool_decide (lecture_id (row_data row) = lectureId)
                                then with_primary false row else row) (table w);
           calls := calls w; queries := queries w |}
    | Some _ => w
    end in
  match clear_fault with
  | Some (Throws _) => (Resolved false, w)
  | _ =>
      match set_fault with
      | Some _ => (Resolved false, cleared)
      | None =>
          (Resolved true,
           {| store := store cleared;
              table := map (λ row, if bool_decide (row_id row = fileId)
                                   then with_primary true row else row)
                         (table cleared);
              calls := calls cleared; queries := queries cleared |})
      end
  end.
Proof.
  unfold setPrimaryFile, try_catch, bind, db_clear_primary, db_set_primary,
    faulty, ret, throw.
  destruct clear_fault as [[?|?]|], set_fault as [[?|?]|]; done.
Qed.

(** X28.  When both updates succeed, the rows of the lecture that are
    primary afterwards are exactly those with the chosen identifier; no row
    is added or lost, and the rows of other lectures keep their flag unless
    they have the chosen identifier. *)
Theorem setPrimaryFile_single_primary (lectureId fileId : jsstring) (w : World) :
  let r := setPrimaryFile None None lectureId fileId w in
  r.1 = Resolved true
  ∧ map row_id (table r.2) = map row_id (table w)
  ∧ (∀ row, row ∈ table r.2 → lecture_id (row_data row) = lectureId →
            (is_primary (row_data row) = true ↔ row_id row = fileId))
  ∧ (∀ row, row ∈ table w → lecture_id (row_data row) ≠ lectureId →
            row_id row ≠ fileId → row ∈ table r.2).
Proof.
  intros r. subst r. rewrite setPrimaryFile_run. cbv zeta.
  cbn [fst snd table]. split; [done|]. rewrite !map_map. split_and!.
  - apply map_ext. intros row. by repeat case_bool_decide.
  - intros row Hin Hl.
    change (map ?f ?l) with (f <$> l) in Hin.
    apply list_elem_of_fmap in Hin as (x & -> & Hx).
    revert Hl. repeat case_bool_decide; cbn; intros Hl; split; try done.
    all: congruence.
  - intros row Hin Hl Hid.
    change (map ?f ?l) with (f <$> l).
    apply list_elem_of_fmap. exists row. split; [|done].
    rewrite (bool_decide_eq_false_2 _ Hl). by rewrite (bool_decide_eq_false_2 _ Hid).
Qed.

(** X29.  An error that the first update returns is not looked at: the
    second update still runs and the result is a success, so every row that
    was primary stays primary beside the chosen one. *)
Theorem setPrimaryFile_ignores_clear_error (refusal lectureId fileId : jsstring)
    (w : World) :
  let r := setPrimaryFile (Some (ReturnsError refusal)) None lectureId fileId w in
  r.1 = Resolved true
  ∧ map (λ row, is_primary (row_data row)) (table r.2)
    = map (λ row, is_primary (row_data row) || bool_decide (row_id row = fileId))
        (table w).
Proof.
  intros r. subst r. rewrite setPrimaryFile_run. cbv zeta.
  cbn [fst snd table]. split; [done|]. rewrite map_map.
  apply map_ext. intros row. case_bool_decide; cbn; [|by rewrite orb_false_r].
  by rewrite orb_true_r.
Qed.
